(** * Coverage of loci by sequencing reads: a model of [loci.py]

    The development embeds the functions of [loci.py] ([init_poscov],
    [init_reads], [process], [output_poscov], [main]) and the Python
    builtins they call, and proves the properties of the coverage engine.

    Conventions of the model.
    - Python integers are unbounded: they are [Z].
    - A character is a code point in U+0000..U+00FF, an [ascii]; a [str] is a
      [string].  Text outside that range is not covered.
    - The optional limit of CPython on the number of digits converted by
      [int] and [str] (4300 by default since 3.11) is not modelled.
    - Files are read and written on a POSIX platform: writing leaves ["\n"]
      as it is, reading translates ["\r\n"] and ["\r"] to ["\n"].
    - The functions of the coverage engine come first, without what they
      print; the report of [init_reads], [check_args] and the gate of [main]
      are modelled after them.  The time stamps [main] prints are left
      out. *)

From Stdlib Require Import ZArith String Ascii List Lia Permutation.
From stdpp Require Import base list strings gmap.

Local Open Scope string_scope.
Local Open Scope list_scope.
Local Open Scope Z_scope.

(** ** Python builtins on text *)

Module Py.

Definition LF : ascii := "010"%char.
Definition CR : ascii := "013"%char.
Definition comma : ascii := ","%char.

Definition code (c : ascii) : N := N_of_ascii c.

Definition chr_eqb (a b : ascii) : bool := Ascii.eqb a b.

(** The decimal digits [int] accepts in this range are 0..9. *)
Definition is_digit (c : ascii) : bool :=
  ((48 <=? code c) && (code c <=? 57))%N.

Definition digit_value (c : ascii) : Z := Z.of_N (code c) - 48.

(** White space skipped by [int] at both ends of its argument: the C
    white space characters, U+0085 and U+00A0. *)
Definition is_space (c : ascii) : bool :=
  let n := code c in
  (((9 <=? n) && (n <=? 13)) || (n =? 32) || (n =? 133) || (n =? 160))%N.

(** [s.lstrip()] and [s.rstrip()] for a set of characters given as a test. *)
Fixpoint lstrip_by (P : ascii -> bool) (s : string) : string :=
  match s with
  | "" => ""
  | String c t => if P c then lstrip_by P t else s
  end.

Fixpoint rstrip_by (P : ascii -> bool) (s : string) : string :=
  match s with
  | "" => ""
  | String c t =>
      match rstrip_by P t with
      | "" => if P c then "" else String c ""
      | t' => String c t'
      end
  end.

(** [s.rstrip("\n")] *)
Definition rstrip_newline (s : string) : string :=
  rstrip_by (fun c => chr_eqb c LF) s.

(** [s.split(",")]: the fields between commas; never an empty list. *)
Fixpoint split_comma (s : string) : list string :=
  match s with
  | "" => [""]
  | String c t =>
      if chr_eqb c comma then "" :: split_comma t
      else match split_comma t with
           | [] => [String c ""]
           | f :: fs => String c f :: fs
           end
  end.

(** The digits of [int]'s argument, with single underscores allowed
    between digits.  [prev] tells whether the previous character was an
    underscore. *)
Fixpoint scan_digits (s : string) (acc : Z) (prev : bool) : option Z :=
  match s with
  | "" => if prev then None else Some acc
  | String c t =>
      if is_digit c then scan_digits t (10 * acc + digit_value c) false
      else if chr_eqb c "_"%char then
             if prev then None else scan_digits t acc true
      else None
  end.

Definition parse_digits (s : string) : option Z :=
  match s with
  | String c _ => if is_digit c then scan_digits s 0 false else None
  | "" => None
  end.

(** [int(s)] for a [str] in base 10; [None] stands for [ValueError]. *)
Definition int (s : string) : option Z :=
  match rstrip_by is_space (lstrip_by is_space s) with
  | String "+" t => parse_digits t
  | String "-" t => Z.opp <$> parse_digits t
  | t => parse_digits t
  end.

Definition digit_char (d : Z) : ascii := ascii_of_N (48 + Z.to_N d).

(** The decimal digits of [n >= 0] in front of [acc]; [fuel] bounds the
    number of digits after the first. *)
Fixpoint str_digits (fuel : nat) (n : Z) (acc : string) : string :=
  let acc' := String (digit_char (n mod 10)) acc in
  match fuel with
  | O => acc'
  | S fuel' => if n <? 10 then acc' else str_digits fuel' (n / 10) acc'
  end.

(** [str(n)] for an [int]. *)
Definition str (n : Z) : string :=
  if n <? 0 then String "-" (str_digits (Z.to_nat (Z.log2 (- n))) (- n) "")
  else str_digits (Z.to_nat (Z.log2 n)) n "".

(** Text mode reading: the translation of line ends, then the lines with
    their terminator, as iteration over the file yields them. *)
Fixpoint universal_newlines (s : string) : string :=
  match s with
  | "" => ""
  | String c t =>
      if chr_eqb c CR then
        String LF (match t with
                   | String c' t' =>
                       if chr_eqb c' LF then universal_newlines t'
                       else universal_newlines t
                   | "" => ""
                   end)
      else String c (universal_newlines t)
  end.

Fixpoint split_lines (s : string) : list string :=
  match s with
  | "" => []
  | String c t =>
      if chr_eqb c LF then String c "" :: split_lines t
      else match split_lines t with
           | [] => [String c ""]
           | l :: ls => String c l :: ls
           end
  end.

Definition readlines (text : string) : list string :=
  split_lines (universal_newlines text).

(** [itertools.islice(it, 1, None)]: everything after the first item. *)
Definition islice_from_1 {A} (l : list A) : list A := tail l.

End Py.

(** ** Exceptions, the store and the monad of the program *)

(** The exceptions the program can raise. *)
Inductive exn : Set := ValueError | IndexError | KeyError.

(** The objects the functions share: the list [loci] (position, coverage,
    position, coverage, ...), the dict [reads] in insertion order, and the
    output file ([None] until it is opened for writing). *)
Record store : Type := Store {
  loci : list Z;
  reads : list (string * Z);
  output_file : option string
}.

Definition set_loci (l : list Z) (st : store) : store :=
  Store l (reads st) (output_file st).
Definition set_reads (d : list (string * Z)) (st : store) : store :=
  Store (loci st) d (output_file st).
Definition set_output (o : option string) (st : store) : store :=
  Store (loci st) (reads st) o.

(** A run ends normally, with an exception (the store is the one at the
    raise), or with the loop budget of the model used up. *)
Inductive outcome (A : Type) : Type :=
| Done (a : A) (st : store)
| Raised (e : exn) (st : store)
| OutOfFuel.
Arguments Done {A} a st.
Arguments Raised {A} e st.
Arguments OutOfFuel {A}.

Definition M (A : Type) : Type := store -> outcome A.

Definition ret {A} (a : A) : M A := fun st => Done a st.

Definition bind {A B} (m : M A) (k : A -> M B) : M B :=
  fun st =>
    match m st with
    | Done a st' => k a st'
    | Raised e st' => Raised e st'
    | OutOfFuel => OutOfFuel
    end.

Definition raise {A} (e : exn) : M A := fun st => Raised e st.

Definition out_of_fuel {A} : M A := fun _ => OutOfFuel.

Notation "x <- m ;; k" := (bind m (fun x => k))
  (at level 100, m at next level, right associativity).
Notation "m ;; k" := (bind m (fun _ => k))
  (at level 100, right associativity).

(** *** Dicts in insertion order *)

Fixpoint dict_get (d : list (string * Z)) (k : string) : option Z :=
  match d with
  | [] => None
  | (k', v) :: rest => if String.eqb k' k then Some v else dict_get rest k
  end.

(** [d[k] = v]: an existing key keeps its place, a new one goes last. *)
Fixpoint dict_set (d : list (string * Z)) (k : string) (v : Z)
  : list (string * Z) :=
  match d with
  | [] => [(k, v)]
  | (k', v') :: rest =>
      if String.eqb k' k then (k', v) :: rest
      else (k', v') :: dict_set rest k v
  end.

Definition dict_keys (d : list (string * Z)) : list string := map fst d.

(** *** Primitive operations *)

(** [int(s)] *)
Definition int (s : string) : M Z :=
  match Py.int s with
  | Some z => ret z
  | None => raise ValueError
  end.

(** [l[i]] for a list that is not in the store *)
Definition index {A} (l : list A) (i : nat) : M A :=
  match l !! i with
  | Some x => ret x
  | None => raise IndexError
  end.

(** [len(loci)] *)
Definition loci_len : M nat := fun st => Done (length (loci st)) st.

(** [loci[i]] *)
Definition loci_get (i : nat) : M Z :=
  fun st =>
    match loci st !! i with
    | Some x => Done x st
    | None => Raised IndexError st
    end.

(** [loci[i] = v] *)
Definition loci_set (i : nat) (v : Z) : M unit :=
  fun st =>
    if (i <? length (loci st))%nat then Done tt (set_loci (<[i:=v]> (loci st)) st)
    else Raised IndexError st.

(** [loci.append(v)] *)
Definition loci_append (v : Z) : M unit :=
  fun st => Done tt (set_loci (loci st ++ [v]) st).

(** [k in reads] *)
Definition reads_contains (k : string) : M bool :=
  fun st => Done (bool_decide (is_Some (dict_get (reads st) k))) st.

(** [reads[k]] *)
Definition reads_get (k : string) : M Z :=
  fun st =>
    match dict_get (reads st) k with
    | Some v => Done v st
    | None => Raised KeyError st
    end.

(** [reads[k] = v] *)
Definition reads_set (k : string) (v : Z) : M unit :=
  fun st => Done tt (set_reads (dict_set (reads st) k v) st).

(** The keys a [for each_key in reads] loop visits. *)
Definition reads_keys : M (list string) :=
  fun st => Done (dict_keys (reads st)) st.

(** [open(output_pathname, "wt")]: the file is created or emptied. *)
Definition open_wt : M unit :=
  fun st => Done tt (set_output (Some "") st).

(** [output_fd.write(s)]; writing to a file that is not open is a
    [ValueError]. *)
Definition fd_write (s : string) : M unit :=
  fun st =>
    match output_file st with
    | Some text => Done tt (set_output (Some (text +:+ s)) st)
    | None => Raised ValueError st
    end.

(** ** The program *)

Definition nl : string := String Py.LF "".

(** [init_poscov], lines 84-89. *)
Fixpoint init_poscov_for (lines : list string) : M unit :=
  match lines with
  | [] => ret tt
  | each_line :: rest =>
      field <- index (Py.split_comma each_line) 0 ;;
      position <- int field ;;
      loci_append position ;;
      loci_append 0 ;;
      init_poscov_for rest
  end.

Definition init_poscov (loci_text : string) : M unit :=
  init_poscov_for (Py.islice_from_1 (Py.readlines loci_text)).

(** [init_reads], lines 155-170. *)
Fixpoint init_reads_for (lines : list string) : M unit :=
  match lines with
  | [] => ret tt
  | each_line :: rest =>
      let the_key := Py.rstrip_newline each_line in
      present <- reads_contains the_key ;;
      (if present : bool then
         count <- reads_get the_key ;;
         reads_set the_key (count + 1)
       else reads_set the_key 1) ;;
      init_reads_for rest
  end.

Definition init_reads (reads_text : string) : M unit :=
  init_reads_for (Py.islice_from_1 (Py.readlines reads_text)).

(** The test of line 217. *)
Definition covers (the_locus start end_ : Z) : bool :=
  (the_locus >=? start) && (the_locus <? end_).

(** The body of the loop over the keys, lines 212-219. *)
Definition visit_key (each_loci : nat) (the_locus : Z) (each_key : string)
  : M unit :=
  let each_fields := Py.split_comma each_key in
  field0 <- index each_fields 0 ;;
  start <- int field0 ;;
  field1 <- index each_fields 1 ;;
  length <- int field1 ;;
  let end_ := start + length in
  if covers the_locus start end_ then
    coverage <- loci_get (each_loci + 1) ;;
    count <- reads_get each_key ;;
    loci_set (each_loci + 1) (coverage + count)
  else ret tt.

(** [for each_key in reads], line 210. *)
Fixpoint for_each_key (keys : list string) (each_loci : nat) (the_locus : Z)
  : M unit :=
  match keys with
  | [] => ret tt
  | each_key :: rest =>
      visit_key each_loci the_locus each_key ;;
      for_each_key rest each_loci the_locus
  end.

(** [while each_loci < loci_count], lines 206-223. *)
Fixpoint process_while (fuel loci_count each_loci : nat) : M unit :=
  if (each_loci <? loci_count)%nat then
    match fuel with
    | O => out_of_fuel
    | S fuel' =>
        the_locus <- loci_get each_loci ;;
        keys <- reads_keys ;;
        for_each_key keys each_loci the_locus ;;
        process_while fuel' loci_count (each_loci + 2)
    end
  else ret tt.

(** [process], lines 203-223.  The index grows at every turn of the loop,
    so [loci_count] turns are enough. *)
Definition process : M unit :=
  loci_count <- loci_len ;;
  process_while loci_count loci_count 0.

(** [while each_field < row_count], lines 122-129. *)
Fixpoint output_poscov_while (fuel row_count each_field : nat) : M unit :=
  if (each_field <? row_count)%nat then
    match fuel with
    | O => out_of_fuel
    | S fuel' =>
        position <- loci_get each_field ;;
        coverage <- loci_get (each_field + 1) ;;
        fd_write (Py.str position +:+ ", " +:+ Py.str coverage +:+ nl) ;;
        output_poscov_while fuel' row_count (each_field + 2)
    end
  else ret tt.

(** [output_poscov], lines 114-129. *)
Definition output_poscov : M unit :=
  open_wt ;;
  fd_write ("position, coverage" +:+ nl) ;;
  row_count <- loci_len ;;
  output_poscov_while row_count row_count 0.

(** [main], lines 235-253, once [check_args] has accepted the arguments.
    The two texts are the contents of the loci file and of the reads
    file. *)
Definition main (loci_text reads_text : string) : M unit :=
  init_poscov loci_text ;;
  init_reads reads_text ;;
  process ;;
  output_poscov.

Definition initial_store : store := Store [] [] None.

(** ** Views of the data used in the statements *)

(** The list [loci] holding the given (position, coverage) pairs. *)
Fixpoint flat (ps : list (Z * Z)) : list Z :=
  match ps with
  | [] => []
  | (position, coverage) :: rest => position :: coverage :: flat rest
  end.

(** The list [loci] as [init_poscov] leaves it: every coverage is 0. *)
Definition fresh (positions : list Z) : list Z :=
  flat (map (fun p => (p, 0)) positions).

(** The start and the length that lines 212-215 read from a key, or the
    exception they raise. *)
Definition key_fields (k : string) : exn + (Z * Z) :=
  match Py.split_comma k with
  | [] => inl IndexError
  | field0 :: others =>
      match Py.int field0 with
      | None => inl ValueError
      | Some start =>
          match others with
          | [] => inl IndexError
          | field1 :: _ =>
              match Py.int field1 with
              | None => inl ValueError
              | Some len => inr (start, len)
              end
          end
      end
  end.

Definition well_formed_key (k : string) : Prop :=
  exists start len, key_fields k = inr (start, len).

(** The exception of the first key, in iteration order, that lines
    212-215 reject. *)
Fixpoint first_error (keys : list string) : option exn :=
  match keys with
  | [] => None
  | k :: rest =>
      match key_fields k with
      | inl e => Some e
      | inr _ => first_error rest
      end
  end.

(** The interval of the specification: [start <= p < start + length]. *)
Definition in_interval (p : Z) (k : string) : Prop :=
  exists start len, key_fields k = inr (start, len) /\ start <= p < start + len.

Definition in_intervalb (p : Z) (k : string) : bool :=
  match key_fields k with
  | inr (start, len) => (start <=? p) && (p <? start + len)
  | inl _ => false
  end.

(** The coverage of the specification: the sum of the multiplicities of
    the stored intervals that contain the position. *)
Fixpoint coverage_sum (d : list (string * Z)) (p : Z) : Z :=
  match d with
  | [] => 0
  | (k, multiplicity) :: rest =>
      (if in_intervalb p k then multiplicity else 0) + coverage_sum rest p
  end.

(** The same sum along a list of keys, each weighted by [d[k]]. *)
Fixpoint coverage_keys (d : list (string * Z)) (keys : list string) (p : Z) : Z :=
  match keys with
  | [] => 0
  | k :: rest =>
      (if in_intervalb p k then default 0 (dict_get d k) else 0)
      + coverage_keys d rest p
  end.

Definition annotate (d : list (string * Z)) (locus : Z * Z) : Z * Z :=
  (fst locus, snd locus + coverage_keys d (dict_keys d) (fst locus)).

(** The number of times a key occurs in a sequence of keys. *)
Fixpoint occurrences (k : string) (keys : list string) : nat :=
  match keys with
  | [] => O
  | k' :: rest =>
      ((if String.eqb k' k then 1 else 0) + occurrences k rest)%nat
  end.

(** The keys [init_reads] derives from the text of the reads file. *)
Definition read_keys (reads_text : string) : list string :=
  map Py.rstrip_newline (Py.islice_from_1 (Py.readlines reads_text)).

(** The position line 88 reads from a row of the loci file. *)
Definition row_position (each_line : string) : option Z :=
  match Py.split_comma each_line with
  | field :: _ => Py.int field
  | [] => None
  end.

Definition loci_rows (loci_text : string) : list string :=
  Py.islice_from_1 (Py.readlines loci_text).

(** Every character of the string passes the test. *)
Fixpoint all_chars (P : ascii -> bool) (s : string) : bool :=
  match s with
  | "" => true
  | String c t => P c && all_chars P t
  end.

Definition not_newline (c : ascii) : bool := negb (Py.chr_eqb c Py.LF).

(** The count [init_reads] stores for a key that has count [old] (if any)
    and then occurs [n] more times. *)
Definition counted (old : option Z) (n : nat) : option Z :=
  match old with
  | Some v => Some (v + Z.of_nat n)
  | None => if Nat.eqb n 0 then None else Some (Z.of_nat n)
  end.

(** The characters [str] produces for an integer. *)
Definition is_number_char (c : ascii) : bool :=
  Py.is_digit c || Py.chr_eqb c "-"%char.

Definition not_comma (c : ascii) : bool := negb (Py.chr_eqb c Py.comma).
Definition not_return (c : ascii) : bool := negb (Py.chr_eqb c Py.CR).
Definition not_space (c : ascii) : bool := negb (Py.is_space c).

(** The text [output_poscov] writes: the header, then a row per locus. *)
Definition header : string := "position, coverage" +:+ nl.

Definition output_row (locus : Z * Z) : string :=
  Py.str (fst locus) +:+ ", " +:+ Py.str (snd locus) +:+ nl.

Fixpoint rows_text (ps : list (Z * Z)) : string :=
  match ps with
  | [] => ""
  | locus :: rest => output_row locus +:+ rows_text rest
  end.

(** One turn of the loop of [init_reads], lines 165-170, on the dict. *)
Definition count_key (d : list (string * Z)) (the_key : string)
  : list (string * Z) :=
  dict_set d the_key
    (match dict_get d the_key with
     | Some count => count + 1
     | None => 1
     end).

(** The positions line 88 reads from the rows, if it accepts them all. *)
Fixpoint row_positions (rows : list string) : option (list Z) :=
  match rows with
  | [] => Some []
  | row :: rest =>
      match row_position row with
      | None => None
      | Some p =>
          match row_positions rest with
          | None => None
          | Some ps => Some (p :: ps)
          end
      end
  end.

(** The dict [init_reads] builds from the text of the reads file. *)
Definition counted_reads (reads_text : string) : list (string * Z) :=
  fold_left count_key (read_keys reads_text) [].

(** The loci after annotation, for positions loaded by [init_poscov]. *)
Definition annotated (d : list (string * Z)) (positions : list Z)
  : list (Z * Z) :=
  map (fun p => (p, coverage_sum d p)) positions.

(** The data rows of a table: its lines after the header. *)
Definition data_rows (text : string) : list string :=
  Py.islice_from_1 (Py.readlines text).

(** A locus with the coverage of the specification added to the
    coverage it has. *)
Definition add_coverage (d : list (string * Z)) (locus : Z * Z) : Z * Z :=
  (fst locus, snd locus + coverage_sum d (fst locus)).

Definition is_newline (c : ascii) : bool := Py.chr_eqb c Py.LF.

(** What annotation may change: only the coverages, which sit at the odd
    indexes of [loci]. *)
Definition only_coverage_changed (st st' : store) : Prop :=
  reads st' = reads st /\
  output_file st' = output_file st /\
  length (loci st') = length (loci st) /\
  forall j, Nat.Even j -> loci st' !! j = loci st !! j.

(** The run ended, normally or with an exception, in a store that
    satisfies [P]. *)
Definition ends_in {A} (P : store -> Prop) (o : outcome A) : Prop :=
  match o with
  | Done _ st' => P st'
  | Raised _ st' => P st'
  | OutOfFuel => False
  end.

(** ** The rest of the program: diagnostics of [init_reads] *)

(** [sep.join(words)] with a single space as separator. *)
Fixpoint join_spaces (words : list string) : string :=
  match words with
  | [] => ""
  | [w] => w
  | w :: rest => w +:+ " " +:+ join_spaces rest
  end.

(** The text [print(a, b, ...)] writes, its arguments already converted
    by [str]. *)
Definition print_text (args : list string) : string :=
  join_spaces args +:+ nl.

(** The loop of [init_reads] with its counter, lines 157-170. *)
Fixpoint init_reads_counting (lines : list string) (num_records : Z) : M Z :=
  match lines with
  | [] => ret num_records
  | each_line :: rest =>
      let num_records := num_records + 1 in
      let the_key := Py.rstrip_newline each_line in
      present <- reads_contains the_key ;;
      (if present : bool then
         count <- reads_get the_key ;;
         reads_set the_key (count + 1)
       else reads_set the_key 1) ;;
      init_reads_counting rest num_records
  end.

(** [len(reads)] *)
Definition reads_len : M nat := fun st => Done (length (reads st)) st.

(** [init_reads], lines 155-173, with the two lines it prints as result. *)
Definition init_reads_report (reads_text : string) : M string :=
  num_records <-
    init_reads_counting (Py.islice_from_1 (Py.readlines reads_text)) 0 ;;
  unique <- reads_len ;;
  ret (print_text [Py.str num_records; "records read"]
       +:+ print_text [Py.str (Z.of_nat unique); "unique records"]).

(** The keys of a sequence that are not in [seen], each once, in the
    order of their first occurrence. *)
Fixpoint distinct_in_order (keys seen : list string) : list string :=
  match keys with
  | [] => []
  | k :: rest =>
      if bool_decide (k ∈ seen) then distinct_in_order rest seen
      else k :: distinct_in_order rest (seen ++ [k])
  end.

(** The sum of the counts of a dict. *)
Fixpoint total_count (d : list (string * Z)) : Z :=
  match d with
  | [] => 0
  | (_, count) :: rest => count + total_count rest
  end.

(** The number of records, duplicates included, whose interval contains
    the position. *)
Fixpoint raw_coverage (keys : list string) (p : Z) : Z :=
  match keys with
  | [] => 0
  | k :: rest => (if in_intervalb p k then 1 else 0) + raw_coverage rest p
  end.

(** The text with every ["\n"] written as ["\r\n"]. *)
Fixpoint crlf (s : string) : string :=
  match s with
  | "" => ""
  | String c t =>
      if Py.chr_eqb c Py.LF then String Py.CR (String Py.LF (crlf t))
      else String c (crlf t)
  end.

(** ** The rest of the program: [check_args] and the gate of [main] *)

(** What a call prints, and the value it returns or the exception it
    raises. *)
Definition console (A : Type) : Type := (string * (exn + A))%type.

Definition say {A} (a : A) : console A := ("", inr a).

Definition and_then {A B} (m : console A) (k : A -> console B) : console B :=
  match m with
  | (out, inl e) => (out, inl e)
  | (out, inr a) =>
      match k a with
      | (out', r) => (out +:+ out', r)
      end
  end.

Notation "x <~ m ;; k" := (and_then m (fun x => k))
  (at level 100, m at next level, right associativity).
Notation "m >>> k" := (and_then m (fun _ => k))
  (at level 100, right associativity).

(** [print(a, b, ...)] *)
Definition print (args : list string) : console unit :=
  (print_text args, inr tt).

(** [l[i]] for a list of strings *)
Definition item (l : list string) (i : nat) : console string :=
  match l !! i with
  | Some x => say x
  | None => ("", inl IndexError)
  end.

Definition usage_text : string :=
  "Usage: python3 loci.py <loci pathname> <reads pathname> <output pathname>".

Definition missing_text : string := "does not exist or isn't a file.".

(** Lines 42-45 for [i = 1] and 47-50 for [i = 2]: the test is on
    [argv[i]], the message names [sys.argv[i]]. *)
Definition check_path (sys_argv argv : list string)
    (path_exists : string -> bool) (i : nat) (status : bool) : console bool :=
  path <~ item argv i ;;
  if negb (path_exists path) then
    name <~ item sys_argv i ;;
    print [name; missing_text] >>>
    say false
  else say status.

(** [check_args], lines 32-59.  [path_exists] is [os.path.exists]. *)
Definition check_args (sys_argv argv : list string)
    (path_exists : string -> bool) : console bool :=
  let num_args := length argv in
  status <~
    (if negb (num_args =? 4)%nat then
       print [usage_text] >>>
       say false
     else
       status <~ check_path sys_argv argv path_exists 1 true ;;
       check_path sys_argv argv path_exists 2 status) ;;
  (if status : bool then
     print [] >>>
     loci_path <~ item sys_argv 1 ;;
     print ["Loci from:  "; loci_path] >>>
     reads_path <~ item sys_argv 2 ;;
     print ["Reads from: "; reads_path] >>>
     output_path <~ item sys_argv 3 ;;
     print ["Output to:  "; output_path]
   else say tt) >>>
  say status.

(** The lines [check_args] prints when it accepts the arguments. *)
Definition summary_text (loci_path reads_path output_path : string) : string :=
  print_text [] +:+ print_text ["Loci from:  "; loci_path]
  +:+ print_text ["Reads from: "; reads_path]
  +:+ print_text ["Output to:  "; output_path].




(** ** Examples *)

Example int_examples :
  Py.int " 5 " = Some 5 /\ Py.int "1_0" = Some 10 /\ Py.int "_1" = None /\
  Py.int "1__0" = None /\ Py.int "1_" = None /\ Py.int "+ 5" = None /\
  Py.int "" = None /\ Py.int "-" = None /\ Py.int "007" = Some 7 /\
  Py.int (" 2" +:+ nl) = Some 2 /\ Py.int "-12" = Some (-12).
Proof. repeat split; reflexivity. Qed.

Example str_examples :
  Py.str 0 = "0" /\ Py.str 10 = "10" /\ Py.str (-5) = "-5" /\
  Py.str 158384123 = "158384123" /\ Py.str 99 = "99" /\ Py.str 100 = "100".
Proof. repeat split; reflexivity. Qed.

Example split_examples :
  Py.split_comma "a,b,,c" = ["a"; "b"; ""; "c"] /\ Py.split_comma "" = [""] /\
  Py.split_comma "," = [""; ""].
Proof. repeat split; reflexivity. Qed.

(** The scenario of the specification. *)
Example scenario :
  main ("position" +:+ nl +:+ "100" +:+ nl +:+ "150" +:+ nl +:+ "200" +:+ nl)
       ("start,length" +:+ nl +:+ "100,60" +:+ nl +:+ "100,60" +:+ nl
          +:+ "140,20" +:+ nl)
       initial_store
  = Done tt
      (Store [100; 2; 150; 3; 200; 0] [("100,60", 2); ("140,20", 1)]
         (Some ("position, coverage" +:+ nl +:+ "100, 2" +:+ nl
                  +:+ "150, 3" +:+ nl +:+ "200, 0" +:+ nl))).
Proof. vm_compute. reflexivity. Qed.

(** ** The monad and the store *)

Lemma bind_done {A B} (m : M A) (k : A -> M B) st a st' :
  m st = Done a st' -> bind m k st = k a st'.
Proof. unfold bind. intros ->. reflexivity. Qed.

Lemma bind_raised {A B} (m : M A) (k : A -> M B) st e st' :
  m st = Raised e st' -> bind m k st = Raised e st'.
Proof. unfold bind. intros ->. reflexivity. Qed.

(** ** Dicts *)

Lemma dict_get_keys d k : k ∈ dict_keys d -> is_Some (dict_get d k).
Proof.
  induction d as [|[k' v] d IH]; simpl.
  - intros H. inversion H.
  - intros H. destruct (String.eqb k' k) eqn:E; [eauto|].
    apply IH. apply elem_of_cons in H as [->|H]; [|exact H].
    rewrite String.eqb_refl in E. discriminate.
Qed.

Lemma dict_get_nodup d k v :
  NoDup (dict_keys d) -> (k, v) ∈ d -> dict_get d k = Some v.
Proof.
  induction d as [|[k' v'] d IH]; simpl; intros Hnd Hin.
  - inversion Hin.
  - apply NoDup_cons in Hnd as [Hk Hnd].
    apply elem_of_cons in Hin as [Heq|Hin].
    + inversion Heq; subst. rewrite String.eqb_refl. reflexivity.
    + destruct (String.eqb k' k) eqn:E.
      * apply String.eqb_eq in E. subst k'. exfalso. apply Hk.
        unfold dict_keys. apply list_elem_of_fmap. exists (k, v). auto.
      * auto.
Qed.

Lemma coverage_keys_sum d0 d p :
  (forall k v, (k, v) ∈ d -> dict_get d0 k = Some v) ->
  coverage_keys d0 (dict_keys d) p = coverage_sum d p.
Proof.
  induction d as [|[k v] d IH]; simpl; intros H; [reflexivity|].
  rewrite (H k v) by apply list_elem_of_here. simpl.
  rewrite IH; [reflexivity|].
  intros k' v' Hin. apply H. apply list_elem_of_further. exact Hin.
Qed.

Lemma coverage_keys_nodup d p :
  NoDup (dict_keys d) -> coverage_keys d (dict_keys d) p = coverage_sum d p.
Proof.
  intros Hnd. apply coverage_keys_sum. intros k v. apply dict_get_nodup, Hnd.
Qed.

(** ** The loop over the keys *)

Lemma split_comma_nonempty s : Py.split_comma s <> [].
Proof.
  destruct s as [|c t]; simpl; [discriminate|].
  destruct (Py.chr_eqb c Py.comma); [discriminate|].
  destruct (Py.split_comma t); discriminate.
Qed.

Lemma covers_spec p s e : covers p s e = true <-> s <= p < e.
Proof. unfold covers. rewrite andb_true_iff, Z.geb_le, Z.ltb_lt. lia. Qed.

Lemma covers_in_intervalb p k s l :
  key_fields k = inr (s, l) -> covers p s (s + l) = in_intervalb p k.
Proof.
  intros H. unfold in_intervalb, covers. rewrite H.
  f_equal. rewrite Z.geb_leb. reflexivity.
Qed.

Lemma in_intervalb_spec p k : in_intervalb p k = true <-> in_interval p k.
Proof.
  unfold in_intervalb, in_interval. split.
  - destruct (key_fields k) as [e|[s l]]; [discriminate|].
    rewrite andb_true_iff, Z.leb_le, Z.ltb_lt. intros H. exists s, l. auto.
  - intros (s & l & -> & H). rewrite andb_true_iff, Z.leb_le, Z.ltb_lt. exact H.
Qed.

(** A key that lines 212-215 reject raises, and the store is untouched. *)
Lemma visit_key_error i p k e st :
  key_fields k = inl e -> visit_key i p k st = Raised e st.
Proof.
  unfold key_fields, visit_key, index, int, bind, raise, ret.
  destruct (Py.split_comma k) as [|f0 [|f1 fs]]; simpl;
    repeat (destruct (Py.int _); simpl); congruence.
Qed.

(** A key they accept is tested against the locus; when it covers, its
    count is added to the coverage that follows the locus. *)
Lemma visit_key_fields i p k s l st :
  key_fields k = inr (s, l) ->
  visit_key i p k st =
    if covers p s (s + l) then
      match loci st !! (i + 1)%nat with
      | None => Raised IndexError st
      | Some c =>
          match dict_get (reads st) k with
          | None => Raised KeyError st
          | Some m =>
              Done tt (set_loci (<[(i + 1)%nat := c + m]> (loci st)) st)
          end
      end
    else Done tt st.
Proof.
  unfold key_fields, visit_key, index, int, bind, raise, ret.
  destruct (Py.split_comma k) as [|f0 [|f1 fs]]; simpl;
    repeat (destruct (Py.int _); simpl); try congruence.
  intros [= -> ->]. destruct (covers p s (s + l)); [|reflexivity].
  unfold loci_get, reads_get, loci_set.
  destruct (loci st !! (i + 1)%nat) as [c|] eqn:Hc; [|reflexivity].
  destruct (dict_get (reads st) k) as [m|]; [|reflexivity].
  apply lookup_lt_Some in Hc. apply Nat.ltb_lt in Hc. rewrite Hc. reflexivity.
Qed.

Lemma for_each_key_spec keys : forall i p c L R O,
  L !! (i + 1)%nat = Some c ->
  (forall k, k ∈ keys -> is_Some (dict_get R k)) ->
  match first_error keys with
  | None =>
      for_each_key keys i p (Store L R O) =
        Done tt (Store (<[(i + 1)%nat := c + coverage_keys R keys p]> L) R O)
  | Some e => exists L', length L' = length L /\
      for_each_key keys i p (Store L R O) = Raised e (Store L' R O)
  end.
Proof.
  induction keys as [|k keys IH]; intros i p c L R O Hc Hin; simpl.
  - unfold ret. rewrite Z.add_0_r, list_insert_id by exact Hc. reflexivity.
  - destruct (key_fields k) as [e|[s l]] eqn:Hk.
    + exists L. split; [reflexivity|]. apply bind_raised.
      apply visit_key_error, Hk.
    + assert (Hrest : forall k', k' ∈ keys -> is_Some (dict_get R k')).
      { intros k' Hk'. apply Hin. apply list_elem_of_further, Hk'. }
      destruct (Hin k (list_elem_of_here _ _)) as [m Hm].
      rewrite Hm. simpl.
      pose proof (visit_key_fields i p k s l (Store L R O) Hk) as Hv.
      simpl in Hv. rewrite Hc, Hm in Hv.
      rewrite <- (covers_in_intervalb p k s l Hk).
      destruct (covers p s (s + l)).
      * unfold set_loci in Hv. simpl in Hv.
        assert (Hc' : <[(i + 1)%nat := c + m]> L !! (i + 1)%nat = Some (c + m)).
        { apply list_lookup_insert_eq. eapply lookup_lt_Some, Hc. }
        specialize (IH i p (c + m) _ R O Hc' Hrest).
        destruct (first_error keys) as [e|].
        -- destruct IH as (L' & Hlen & IH). exists L'. split.
           ++ rewrite Hlen. apply length_insert.
           ++ rewrite (bind_done _ _ _ _ _ Hv). exact IH.
        -- rewrite (bind_done _ _ _ _ _ Hv), IH.
           rewrite list_insert_insert_eq. do 3 f_equal. lia.
      * specialize (IH i p c L R O Hc Hrest).
        destruct (first_error keys) as [e|].
        -- destruct IH as (L' & Hlen & IH). exists L'. split; [exact Hlen|].
           rewrite (bind_done _ _ _ _ _ Hv). exact IH.
        -- rewrite (bind_done _ _ _ _ _ Hv), IH. reflexivity.
Qed.

(** ** The list of loci *)

Lemma flat_app ps qs : flat (ps ++ qs) = flat ps ++ flat qs.
Proof.
  induction ps as [|[p c] ps IH]; simpl; [reflexivity|]. rewrite IH. reflexivity.
Qed.

Lemma length_flat ps : length (flat ps) = (2 * length ps)%nat.
Proof. induction ps as [|[p c] ps IH]; simpl; lia. Qed.

Lemma flat_inj ps qs : flat ps = flat qs -> ps = qs.
Proof.
  revert qs. induction ps as [|[p c] ps IH]; intros [|[q d] qs]; simpl;
    try discriminate; [reflexivity|].
  intros [= -> -> H]. f_equal. apply IH, H.
Qed.

Lemma flat_lookup_position ps i :
  flat ps !! (2 * i)%nat = fst <$> ps !! i.
Proof.
  revert i. induction ps as [|[p c] ps IH]; intros [|i]; simpl; try reflexivity.
  replace (i + S (i + 0))%nat with (S (2 * i)) by lia. simpl. apply IH.
Qed.

Lemma flat_lookup_coverage ps i :
  flat ps !! (2 * i + 1)%nat = snd <$> ps !! i.
Proof.
  revert i. induction ps as [|[p c] ps IH]; intros [|i]; simpl; try reflexivity.
  replace (i + S (i + 0) + 1)%nat with (S (2 * i + 1)) by lia. simpl. apply IH.
Qed.

(** ** The loop over the loci *)

Lemma process_while_flat todo : forall done fuel n i R O,
  n = length (flat (done ++ todo)) ->
  i = length (flat done) ->
  (length todo <= fuel)%nat ->
  first_error (dict_keys R) = None ->
  process_while fuel n i (Store (flat (done ++ todo)) R O) =
    Done tt (Store (flat (done ++ map (annotate R) todo)) R O).
Proof.
  induction todo as [|[p c] todo IH]; intros done fuel n i R O Hn Hi Hfuel Herr.
  - subst n i. simpl map. rewrite !app_nil_r.
    destruct fuel; simpl; rewrite Nat.ltb_irrefl; reflexivity.
  - destruct fuel as [|fuel]; [simpl in Hfuel; lia|]. simpl in Hfuel.
    assert (Hlt : (i <? n)%nat = true).
    { apply Nat.ltb_lt. subst. rewrite !length_flat, length_app. simpl. lia. }
    simpl. rewrite Hlt.
    assert (Hp : flat (done ++ (p, c) :: todo) !! i = Some p).
    { rewrite flat_app, Hi. rewrite lookup_app_r by lia.
      rewrite Nat.sub_diag. reflexivity. }
    assert (Hc : flat (done ++ (p, c) :: todo) !! (i + 1)%nat = Some c).
    { rewrite flat_app, Hi. rewrite lookup_app_r by lia.
      replace (length (flat done) + 1 - length (flat done))%nat with 1%nat by lia.
      reflexivity. }
    unfold bind at 1. unfold loci_get at 1. simpl. rewrite Hp.
    unfold bind at 1. unfold reads_keys at 1. simpl.
    pose proof (for_each_key_spec (dict_keys R) i p c _ R O Hc
                  (fun k Hk => dict_get_keys R k Hk)) as Hfor.
    rewrite Herr in Hfor. rewrite (bind_done _ _ _ _ _ Hfor).
    replace (<[(i + 1)%nat := c + coverage_keys R (dict_keys R) p]>
               (flat (done ++ (p, c) :: todo)))
      with (flat ((done ++ [annotate R (p, c)]) ++ todo)).
    + rewrite (IH (done ++ [annotate R (p, c)]) fuel n (i + 2)%nat R O);
        try assumption; try lia.
      * rewrite <- app_assoc. reflexivity.
      * subst n. rewrite !length_flat, !length_app. simpl. lia.
      * subst i. rewrite !length_flat, !length_app. simpl. lia.
    + rewrite !flat_app. simpl. rewrite <- app_assoc. simpl.
      rewrite insert_app_r_alt by lia.
      replace (i + 1 - length (flat done))%nat with 1%nat by lia.
      reflexivity.
Qed.

(** [process] on a well-formed list of loci: every locus gets the sum of
    the counts of the keys that cover it, unless a key is rejected. *)
Lemma process_flat ps R O :
  first_error (dict_keys R) = None ->
  process (Store (flat ps) R O) = Done tt (Store (flat (map (annotate R) ps)) R O).
Proof.
  intros Herr. unfold process, bind, loci_len. simpl.
  apply (process_while_flat ps [] _ _ 0%nat R O); auto.
  rewrite length_flat. lia.
Qed.

Lemma process_no_loci R O : process (Store [] R O) = Done tt (Store [] R O).
Proof. reflexivity. Qed.

Lemma process_flat_error p c ps R O e :
  first_error (dict_keys R) = Some e ->
  exists L', length L' = length (flat ((p, c) :: ps)) /\
    process (Store (flat ((p, c) :: ps)) R O) = Raised e (Store L' R O).
Proof.
  intros Herr. unfold process, bind at 1, loci_len. simpl.
  unfold bind at 1, loci_get at 1. simpl.
  unfold bind at 1, reads_keys at 1. simpl.
  pose proof (for_each_key_spec (dict_keys R) 0%nat p c (p :: c :: flat ps) R O
                eq_refl (fun k Hk => dict_get_keys R k Hk)) as Hfor.
  rewrite Herr in Hfor. destruct Hfor as (L' & Hlen & Hfor).
  exists L'. split; [exact Hlen|]. apply bind_raised. exact Hfor.
Qed.

(** ** What annotation leaves alone *)

Lemma only_coverage_changed_refl st : only_coverage_changed st st.
Proof. unfold only_coverage_changed. auto. Qed.

Lemma only_coverage_changed_trans st1 st2 st3 :
  only_coverage_changed st1 st2 -> only_coverage_changed st2 st3 ->
  only_coverage_changed st1 st3.
Proof.
  intros (H1 & H2 & H3 & H4) (K1 & K2 & K3 & K4). repeat split; try congruence.
  intros j Hj. rewrite K4, H4 by exact Hj. reflexivity.
Qed.

Lemma bind_ends_in {A B} (m : M A) (k : A -> M B) st :
  ends_in (only_coverage_changed st) (m st) ->
  (forall a st', only_coverage_changed st st' ->
                 ends_in (only_coverage_changed st') (k a st')) ->
  ends_in (only_coverage_changed st) (bind m k st).
Proof.
  unfold bind. destruct (m st) as [a st'|e st'|]; simpl; auto.
  intros H Hk. specialize (Hk a st' H).
  destruct (k a st') as [b st''|e st''|]; simpl in *; auto;
    eapply only_coverage_changed_trans; eauto.
Qed.

Lemma visit_key_ends_in i p k st :
  Nat.Even i -> ends_in (only_coverage_changed st) (visit_key i p k st).
Proof.
  intros Hi. destruct (key_fields k) as [e|[s l]] eqn:Hk.
  - rewrite (visit_key_error _ _ _ _ _ Hk). apply only_coverage_changed_refl.
  - rewrite (visit_key_fields _ _ _ _ _ _ Hk).
    destruct (covers p s (s + l)); [|apply only_coverage_changed_refl].
    destruct (loci st !! (i + 1)%nat) as [c|]; [|apply only_coverage_changed_refl].
    destruct (dict_get (reads st) k) as [m|]; [|apply only_coverage_changed_refl].
    simpl. repeat split; simpl.
    + apply length_insert.
    + intros j Hj. apply list_lookup_insert_ne. intros Heq. subst j.
      apply (Nat.Even_Odd_False (i + 1)); [exact Hj|].
      destruct Hi as [h ->]. exists h. lia.
Qed.

Lemma for_each_key_ends_in keys i p : forall st,
  Nat.Even i -> ends_in (only_coverage_changed st) (for_each_key keys i p st).
Proof.
  induction keys as [|k keys IH]; intros st Hi; simpl.
  - apply only_coverage_changed_refl.
  - apply bind_ends_in; [apply visit_key_ends_in, Hi|].
    intros _ st' _. apply IH, Hi.
Qed.

Lemma process_while_ends_in fuel : forall n i st,
  Nat.Even i -> (n <= i + fuel)%nat ->
  ends_in (only_coverage_changed st) (process_while fuel n i st).
Proof.
  induction fuel as [|fuel IH]; intros n i st Hi Hfuel; simpl.
  - destruct (i <? n)%nat eqn:E; [apply Nat.ltb_lt in E; lia|].
    apply only_coverage_changed_refl.
  - destruct (i <? n)%nat eqn:E; [|apply only_coverage_changed_refl].
    apply bind_ends_in.
    { unfold loci_get. destruct (loci st !! i); apply only_coverage_changed_refl. }
    intros the_locus st1 _. apply bind_ends_in.
    { apply only_coverage_changed_refl. }
    intros keys st2 _. apply bind_ends_in.
    { apply for_each_key_ends_in, Hi. }
    intros _ st3 _. apply IH; [|lia].
    destruct Hi as [h ->]. exists (S h). lia.
Qed.

Lemma process_ends_in st : ends_in (only_coverage_changed st) (process st).
Proof.
  unfold process. apply bind_ends_in.
  { apply only_coverage_changed_refl. }
  intros n st' _. apply process_while_ends_in; [exists 0%nat; reflexivity|lia].
Qed.

(** ** Building the dict of reads *)

Lemma dict_get_set d k v k' :
  dict_get (dict_set d k v) k' = if String.eqb k k' then Some v else dict_get d k'.
Proof.
  induction d as [|[k0 v0] d IH]; simpl.
  - reflexivity.
  - destruct (String.eqb k0 k) eqn:E0; simpl.
    + apply String.eqb_eq in E0. subst k0. destruct (String.eqb k k'); reflexivity.
    + rewrite IH. destruct (String.eqb k0 k') eqn:E1; [|reflexivity].
      apply String.eqb_eq in E1. subst k0.
      rewrite String.eqb_sym, E0. reflexivity.
Qed.

Lemma dict_keys_set d k v :
  dict_keys (dict_set d k v) =
    match dict_get d k with
    | Some _ => dict_keys d
    | None => dict_keys d ++ [k]
    end.
Proof.
  induction d as [|[k0 v0] d IH]; simpl; [reflexivity|].
  destruct (String.eqb k0 k) eqn:E0; simpl; [reflexivity|].
  rewrite IH. destruct (dict_get d k); reflexivity.
Qed.

Lemma dict_get_None d k : dict_get d k = None -> k ∉ dict_keys d.
Proof.
  intros H Hin. apply dict_get_keys in Hin as [v Hv]. congruence.
Qed.

Lemma dict_set_nodup d k v :
  NoDup (dict_keys d) -> NoDup (dict_keys (dict_set d k v)).
Proof.
  intros Hnd. rewrite dict_keys_set.
  destruct (dict_get d k) eqn:E; [exact Hnd|].
  apply NoDup_app. split; [exact Hnd|]. split.
  - intros x Hx Hk. apply list_elem_of_singleton in Hk. subst x.
    exact (dict_get_None _ _ E Hx).
  - apply NoDup_singleton.
Qed.

Lemma dict_get_elem d k v : dict_get d k = Some v -> (k, v) ∈ d.
Proof.
  induction d as [|[k0 v0] d IH]; simpl; [discriminate|].
  destruct (String.eqb k0 k) eqn:E.
  - apply String.eqb_eq in E. intros [= ->]. subst. apply list_elem_of_here.
  - intros H. apply list_elem_of_further, IH, H.
Qed.

(** [init_reads] never raises; it leaves [loci] and the output alone, and
    counts every key. *)
Lemma init_reads_for_run lines : forall L R O,
  init_reads_for lines (Store L R O) =
    Done tt (Store L (fold_left count_key (map Py.rstrip_newline lines) R) O).
Proof.
  induction lines as [|line lines IH]; intros L R O; [reflexivity|].
  simpl. unfold bind at 1, reads_contains at 1. simpl.
  rewrite <- IH. unfold count_key.
  destruct (dict_get R (Py.rstrip_newline line)) as [v|] eqn:E.
  - rewrite bool_decide_eq_true_2 by eauto.
    unfold bind, reads_get, reads_set. simpl. rewrite E. reflexivity.
  - rewrite bool_decide_eq_false_2 by (intros [? ?]; discriminate).
    reflexivity.
Qed.

Lemma init_reads_run reads_text L R O :
  init_reads reads_text (Store L R O) =
    Done tt (Store L (fold_left count_key (read_keys reads_text) R) O).
Proof. apply init_reads_for_run. Qed.

Lemma count_keys_nodup keys : forall R,
  NoDup (dict_keys R) -> NoDup (dict_keys (fold_left count_key keys R)).
Proof.
  induction keys as [|key keys IH]; intros R H; simpl; [exact H|].
  apply IH. apply dict_set_nodup, H.
Qed.

Lemma count_keys_get keys : forall R k,
  dict_get (fold_left count_key keys R) k =
    counted (dict_get R k) (occurrences k keys).
Proof.
  induction keys as [|key keys IH]; intros R k; simpl.
  - unfold counted. destruct (dict_get R k); [f_equal; lia|reflexivity].
  - rewrite IH. unfold count_key. rewrite dict_get_set.
    destruct (String.eqb key k) eqn:E.
    + apply String.eqb_eq in E. subst k. unfold counted.
      destruct (dict_get R key); simpl; f_equal; lia.
    + reflexivity.
Qed.

Lemma counted_positive n m : counted None n = Some m -> 1 <= m.
Proof.
  unfold counted. destruct n; simpl; [discriminate|]. intros [= <-]. lia.
Qed.

(** ** Text *)

Lemma app_cons c s t : String c s +:+ t = String c (s +:+ t).
Proof. reflexivity. Qed.

Lemma app_nil_left s : "" +:+ s = s.
Proof. reflexivity. Qed.

Lemma app_nil_right s : s +:+ "" = s.
Proof. induction s as [|c s IH]; [reflexivity|]. rewrite app_cons, IH. reflexivity. Qed.

Lemma app_assoc_string a b c : (a +:+ b) +:+ c = a +:+ (b +:+ c).
Proof.
  induction a as [|x a IH]; [reflexivity|]. rewrite !app_cons, IH. reflexivity.
Qed.

Lemma all_chars_app P s t :
  all_chars P (s +:+ t) = all_chars P s && all_chars P t.
Proof.
  induction s as [|c s IH]; [reflexivity|].
  rewrite app_cons. simpl. rewrite IH, andb_assoc. reflexivity.
Qed.

Lemma all_chars_impl (P Q : ascii -> bool) s :
  (forall c, P c = true -> Q c = true) ->
  all_chars P s = true -> all_chars Q s = true.
Proof.
  intros HPQ. induction s as [|c s IH]; simpl; [reflexivity|].
  rewrite !andb_true_iff. intros [Hc Hs]. auto.
Qed.

Lemma number_char_facts c :
  is_number_char c = true ->
  not_comma c = true /\ not_return c = true /\ not_space c = true /\
  not_newline c = true.
Proof.
  destruct c as [[] [] [] [] [] [] [] []]; vm_compute; intros H;
    try discriminate H; repeat split; reflexivity.
Qed.

(** Closes [Q c = true] for the tests above from [is_number_char c]. *)
Ltac number_char :=
  let c := fresh "c" in
  let Hc := fresh "Hc" in
  intros c Hc; apply number_char_facts in Hc; tauto.

Lemma lstrip_by_head P c t : P c = false -> Py.lstrip_by P (String c t) = String c t.
Proof. simpl. intros ->. reflexivity. Qed.

Lemma rstrip_by_none P s :
  all_chars (fun c => negb (P c)) s = true -> Py.rstrip_by P s = s.
Proof.
  induction s as [|c s IH]; simpl; [reflexivity|].
  rewrite andb_true_iff, negb_true_iff. intros [Hc Hs].
  rewrite (IH Hs), Hc. destruct s; reflexivity.
Qed.

Lemma rstrip_by_last P s c :
  P c = true -> Py.rstrip_by P (s +:+ String c "") = Py.rstrip_by P s.
Proof.
  intros Hc. induction s as [|a s IH].
  - simpl. rewrite Hc. reflexivity.
  - rewrite app_cons. simpl. rewrite IH. reflexivity.
Qed.

(** What [rstrip] leaves has no character of the set at its end, and
    what it removes are characters of the set. *)
Lemma rstrip_by_spec P s :
  exists removed,
    s = Py.rstrip_by P s +:+ removed /\ all_chars P removed = true /\
    forall body c, Py.rstrip_by P s = body +:+ String c "" -> P c = false.
Proof.
  induction s as [|a s (removed & Heq & Hrem & Hlast)].
  - exists "". repeat split. intros [|? ?] c H; discriminate H.
  - simpl. destruct (Py.rstrip_by P s) as [|b t] eqn:E.
    + destruct (P a) eqn:Ha.
      * exists (String a removed). rewrite app_nil_left in *. subst s.
        repeat split. { simpl. rewrite Ha, Hrem. reflexivity. }
        intros [|? ?] c H; discriminate H.
      * exists removed. rewrite app_cons. rewrite <- Heq. repeat split; [exact Hrem|].
        intros [|x [|? ?]] c H; inversion H; subst; assumption.
    + exists removed. rewrite app_cons. rewrite <- Heq. repeat split; [exact Hrem|].
      intros [|x body] c H.
      * discriminate H.
      * rewrite app_cons in H. inversion H; subst. eapply Hlast. eassumption.
Qed.

Lemma split_comma_none s :
  all_chars not_comma s = true -> Py.split_comma s = [s].
Proof.
  induction s as [|c s IH]; simpl; [reflexivity|].
  rewrite andb_true_iff. unfold not_comma at 1. rewrite negb_true_iff.
  intros [-> Hs]. rewrite (IH Hs). reflexivity.
Qed.

Lemma split_comma_first s t :
  all_chars not_comma s = true ->
  Py.split_comma (s +:+ String Py.comma t) = s :: Py.split_comma t.
Proof.
  induction s as [|c s IH]; [reflexivity|]. simpl.
  rewrite andb_true_iff. unfold not_comma at 1. rewrite negb_true_iff.
  intros [Hc Hs]. rewrite Hc, (IH Hs). reflexivity.
Qed.

Lemma universal_newlines_none s :
  all_chars not_return s = true -> Py.universal_newlines s = s.
Proof.
  induction s as [|c s IH]; simpl; [reflexivity|].
  rewrite andb_true_iff. unfold not_return at 1. rewrite negb_true_iff.
  intros [-> Hs]. rewrite (IH Hs). reflexivity.
Qed.

Lemma split_lines_first body rest :
  all_chars not_newline body = true ->
  Py.split_lines (body +:+ nl +:+ rest) = (body +:+ nl) :: Py.split_lines rest.
Proof.
  induction body as [|c s IH]; [reflexivity|]. simpl.
  rewrite andb_true_iff. unfold not_newline at 1. rewrite negb_true_iff.
  intros [Hc Hs]. rewrite Hc, (IH Hs). reflexivity.
Qed.

(** ** [str] and [int] *)

Lemma digit_char_facts d :
  0 <= d < 10 ->
  Py.is_digit (Py.digit_char d) = true /\ Py.digit_value (Py.digit_char d) = d.
Proof.
  intros H.
  assert (d = 0 \/ d = 1 \/ d = 2 \/ d = 3 \/ d = 4 \/ d = 5 \/ d = 6 \/
          d = 7 \/ d = 8 \/ d = 9) as Hd by lia.
  repeat (destruct Hd as [->|Hd]; [split; reflexivity|]). subst d. split; reflexivity.
Qed.

Lemma digit_char_mod n : Py.is_digit (Py.digit_char (n mod 10)) = true.
Proof. apply digit_char_facts. apply Z.mod_pos_bound. lia. Qed.

Lemma str_digits_head fuel : forall n acc,
  exists c t, Py.str_digits fuel n acc = String c t /\ Py.is_digit c = true.
Proof.
  induction fuel as [|fuel IH]; intros n acc; simpl.
  - eexists _, _. split; [reflexivity|]. apply digit_char_mod.
  - destruct (n <? 10); [|apply IH].
    eexists _, _. split; [reflexivity|]. apply digit_char_mod.
Qed.

Lemma str_digits_chars fuel : forall n acc,
  all_chars is_number_char acc = true ->
  all_chars is_number_char (Py.str_digits fuel n acc) = true.
Proof.
  assert (Hd : forall n, is_number_char (Py.digit_char (n mod 10)) = true).
  { intros n. unfold is_number_char. rewrite digit_char_mod. reflexivity. }
  induction fuel as [|fuel IH]; intros n acc Hacc; simpl.
  - rewrite Hd, Hacc. reflexivity.
  - destruct (n <? 10); [simpl; rewrite Hd, Hacc; reflexivity|].
    apply IH. simpl. rewrite Hd, Hacc. reflexivity.
Qed.

(** Reading back the digits written for [n] continues the scan with [n]
    appended to the number read so far. *)
Lemma scan_str_digits fuel : forall n,
  0 <= n < 2 ^ (Z.of_nat fuel + 1) ->
  exists k : nat, forall acc a prev,
    Py.scan_digits (Py.str_digits fuel n acc) a prev =
    Py.scan_digits acc (a * 10 ^ Z.of_nat k + n) false.
Proof.
  assert (Hone : forall n acc a prev, 0 <= n < 10 ->
            Py.scan_digits (String (Py.digit_char (n mod 10)) acc) a prev =
            Py.scan_digits acc (a * 10 ^ Z.of_nat 1 + n) false).
  { intros n acc a prev Hn. rewrite Z.mod_small by lia. simpl Py.scan_digits.
    destruct (digit_char_facts n Hn) as [-> ->]. f_equal. lia. }
  induction fuel as [|fuel IH]; intros n Hn.
  - exists 1%nat. intros acc a prev. apply Hone. simpl in Hn. lia.
  - simpl Py.str_digits. destruct (n <? 10) eqn:E.
    + apply Z.ltb_lt in E. exists 1%nat. intros acc a prev. apply Hone. lia.
    + apply Z.ltb_ge in E.
      destruct (IH (n / 10)) as [k Hk].
      { split; [apply Z.div_pos; lia|].
        apply Z.div_lt_upper_bound; [lia|].
        replace (Z.of_nat (S fuel) + 1) with (Z.succ (Z.of_nat fuel + 1)) in Hn by lia.
        rewrite Z.pow_succ_r in Hn by lia. lia. }
      exists (S k). intros acc a prev. rewrite Hk.
      simpl Py.scan_digits.
      destruct (digit_char_facts (n mod 10)) as [-> ->];
        [apply Z.mod_pos_bound; lia|].
      f_equal. rewrite Nat2Z.inj_succ, Z.pow_succ_r by lia.
      pose proof (Z.div_mod n 10). lia.
Qed.

Lemma log2_fuel n : 0 <= n -> 0 <= n < 2 ^ (Z.of_nat (Z.to_nat (Z.log2 n)) + 1).
Proof.
  intros Hn. split; [exact Hn|].
  rewrite Z2Nat.id by apply Z.log2_nonneg.
  destruct (Z.eq_dec n 0) as [->|Hne]; [reflexivity|].
  apply Z.log2_spec. lia.
Qed.

Lemma parse_str_digits n :
  0 <= n -> Py.parse_digits (Py.str_digits (Z.to_nat (Z.log2 n)) n "") = Some n.
Proof.
  intros Hn. destruct (scan_str_digits _ n (log2_fuel n Hn)) as [k Hk].
  destruct (str_digits_head (Z.to_nat (Z.log2 n)) n "") as (c & t & Hs & Hc).
  unfold Py.parse_digits. rewrite Hs, Hc, <- Hs, Hk. simpl. f_equal; lia.
Qed.

Lemma str_chars z : all_chars is_number_char (Py.str z) = true.
Proof.
  unfold Py.str. destruct (z <? 0); [simpl|]; apply str_digits_chars; reflexivity.
Qed.

Lemma str_no_space z : all_chars (fun c => negb (Py.is_space c)) (Py.str z) = true.
Proof.
  eapply all_chars_impl; [|apply str_chars].
  number_char.
Qed.

Lemma str_head z : exists c t, Py.str z = String c t /\ Py.is_space c = false.
Proof.
  pose proof (str_no_space z) as H.
  assert (Hne : Py.str z <> "").
  { unfold Py.str. destruct (z <? 0); [discriminate|].
    destruct (str_digits_head (Z.to_nat (Z.log2 z)) z "") as (c & t & -> & _).
    discriminate. }
  destruct (Py.str z) as [|c t]; [congruence|].
  simpl in H. apply andb_true_iff in H as [H _]. apply negb_true_iff in H.
  eauto.
Qed.

Lemma int_digits_head c t :
  Py.is_digit c = true ->
  match String c t with
  | String "+" t' => Py.parse_digits t'
  | String "-" t' => Z.opp <$> Py.parse_digits t'
  | t' => Py.parse_digits t'
  end = Py.parse_digits (String c t).
Proof.
  destruct c as [[] [] [] [] [] [] [] []]; intros H; try reflexivity;
    vm_compute in H; discriminate H.
Qed.

(** [int(str(z)) == z], also with white space around the digits. *)
Lemma int_stripped s z :
  Py.rstrip_by Py.is_space (Py.lstrip_by Py.is_space s) = Py.str z ->
  Py.int s = Some z.
Proof.
  intros Hs. unfold Py.int. rewrite Hs. unfold Py.str.
  destruct (z <? 0) eqn:E.
  - apply Z.ltb_lt in E. rewrite parse_str_digits by lia. simpl. f_equal. lia.
  - apply Z.ltb_ge in E.
    destruct (str_digits_head (Z.to_nat (Z.log2 z)) z "") as (c & t & Hd & Hc).
    rewrite Hd, (int_digits_head c t Hc), <- Hd. apply parse_str_digits, E.
Qed.

Lemma int_str z : Py.int (Py.str z) = Some z.
Proof.
  apply int_stripped. destruct (str_head z) as (c & t & Hs & Hc).
  rewrite Hs, (lstrip_by_head _ _ _ Hc), <- Hs.
  apply rstrip_by_none, str_no_space.
Qed.

Lemma int_space_str_nl z : Py.int (" " +:+ Py.str z +:+ nl) = Some z.
Proof.
  apply int_stripped. destruct (str_head z) as (c & t & Hs & Hc).
  change (" " +:+ Py.str z +:+ nl) with (String " " (Py.str z +:+ nl)).
  simpl Py.lstrip_by. rewrite Hs, app_cons, (lstrip_by_head _ _ _ Hc).
  rewrite <- app_cons, <- Hs. unfold nl.
  rewrite rstrip_by_last by reflexivity.
  apply rstrip_by_none, str_no_space.
Qed.

(** ** Loading the loci *)

Lemma fresh_cons p ps : fresh (p :: ps) = p :: 0 :: fresh ps.
Proof. reflexivity. Qed.

Lemma init_poscov_for_cons row rows L R O :
  init_poscov_for (row :: rows) (Store L R O) =
    match row_position row with
    | Some p => init_poscov_for rows (Store ((L ++ [p]) ++ [0]) R O)
    | None => Raised ValueError (Store L R O)
    end.
Proof.
  simpl. unfold row_position, index, int, bind, ret, raise, loci_append.
  pose proof (split_comma_nonempty row) as Hne.
  destruct (Py.split_comma row) as [|field fields]; [congruence|]. simpl.
  destruct (Py.int field); reflexivity.
Qed.

Lemma init_poscov_for_spec rows : forall L R O,
  match row_positions rows with
  | Some ps =>
      init_poscov_for rows (Store L R O) = Done tt (Store (L ++ fresh ps) R O)
  | None =>
      exists L', init_poscov_for rows (Store L R O) = Raised ValueError (Store L' R O)
  end.
Proof.
  induction rows as [|row rows IH]; intros L R O.
  - simpl. rewrite app_nil_r. reflexivity.
  - rewrite init_poscov_for_cons. simpl row_positions.
    destruct (row_position row) as [p|]; [|exists L; reflexivity].
    specialize (IH ((L ++ [p]) ++ [0]) R O).
    destruct (row_positions rows) as [ps|].
    + rewrite IH, fresh_cons, <- !app_assoc. reflexivity.
    + exact IH.
Qed.

(** ** Writing the table *)

Lemma output_poscov_while_flat todo : forall done fuel n i R text,
  n = length (flat (done ++ todo)) ->
  i = length (flat done) ->
  (length todo <= fuel)%nat ->
  output_poscov_while fuel n i (Store (flat (done ++ todo)) R (Some text)) =
    Done tt (Store (flat (done ++ todo)) R (Some (text +:+ rows_text todo))).
Proof.
  induction todo as [|[p c] todo IH]; intros done fuel n i R text Hn Hi Hfuel.
  - subst n i. rewrite !app_nil_r. simpl rows_text. rewrite app_nil_right.
    destruct fuel; simpl; rewrite Nat.ltb_irrefl; reflexivity.
  - destruct fuel as [|fuel]; [simpl in Hfuel; lia|]. simpl in Hfuel.
    assert (Hlt : (i <? n)%nat = true).
    { apply Nat.ltb_lt. subst. rewrite !length_flat, length_app. simpl. lia. }
    simpl output_poscov_while. rewrite Hlt.
    assert (Hp : flat (done ++ (p, c) :: todo) !! i = Some p).
    { rewrite flat_app, Hi. rewrite lookup_app_r by lia.
      rewrite Nat.sub_diag. reflexivity. }
    assert (Hc : flat (done ++ (p, c) :: todo) !! (i + 1)%nat = Some c).
    { rewrite flat_app, Hi. rewrite lookup_app_r by lia.
      replace (length (flat done) + 1 - length (flat done))%nat with 1%nat by lia.
      reflexivity. }
    unfold bind at 1, loci_get at 1. simpl loci. rewrite Hp.
    unfold bind at 1, loci_get at 1. simpl loci. rewrite Hc.
    unfold bind at 1, fd_write at 1. simpl output_file. unfold set_output. simpl.
    replace (done ++ (p, c) :: todo) with ((done ++ [(p, c)]) ++ todo)
      by (rewrite <- app_assoc; reflexivity).
    rewrite (IH (done ++ [(p, c)]) fuel n (i + 2)%nat); try lia.
    + rewrite app_assoc_string. reflexivity.
    + subst n. rewrite !length_flat, !length_app. simpl. lia.
    + subst i. rewrite !length_flat, !length_app. simpl. lia.
Qed.

Lemma output_poscov_flat ps R O :
  output_poscov (Store (flat ps) R O) =
    Done tt (Store (flat ps) R (Some (header +:+ rows_text ps))).
Proof.
  unfold output_poscov, bind at 1, open_wt. simpl.
  unfold bind at 1, fd_write at 1. simpl.
  unfold bind at 1, loci_len at 1. simpl.
  apply (output_poscov_while_flat ps [] _ _ 0%nat R); auto.
  rewrite length_flat. lia.
Qed.

(** ** Reading the table back *)

Lemma str_all (Q : ascii -> bool) z :
  (forall c, is_number_char c = true -> Q c = true) ->
  all_chars Q (Py.str z) = true.
Proof. intros H. eapply all_chars_impl; [exact H|apply str_chars]. Qed.

Lemma output_row_body locus :
  output_row locus = (Py.str (fst locus) +:+ ", " +:+ Py.str (snd locus)) +:+ nl.
Proof. unfold output_row. rewrite !app_assoc_string. reflexivity. Qed.

Lemma row_body_chars (Q : ascii -> bool) locus :
  (forall c, is_number_char c = true -> Q c = true) ->
  Q ","%char = true -> Q " "%char = true ->
  all_chars Q (Py.str (fst locus) +:+ ", " +:+ Py.str (snd locus)) = true.
Proof.
  intros H Hcomma Hspace. rewrite !all_chars_app, !str_all by exact H.
  simpl. rewrite Hcomma, Hspace. reflexivity.
Qed.

Lemma rows_text_no_return ps : all_chars not_return (rows_text ps) = true.
Proof.
  induction ps as [|locus ps IH]; [reflexivity|]. simpl.
  rewrite all_chars_app, IH, output_row_body, all_chars_app, row_body_chars;
    try reflexivity.
  number_char.
Qed.

Lemma split_lines_rows ps : Py.split_lines (rows_text ps) = map output_row ps.
Proof.
  induction ps as [|locus ps IH]; [reflexivity|]. simpl.
  rewrite output_row_body at 1. rewrite app_assoc_string.
  rewrite split_lines_first, IH, <- output_row_body; [reflexivity|].
  apply row_body_chars; try reflexivity.
  number_char.
Qed.

(** The lines of the file written by [output_poscov]: the header, then a
    row per locus, in order. *)
Lemma readlines_table ps :
  Py.readlines (header +:+ rows_text ps) = header :: map output_row ps.
Proof.
  unfold Py.readlines. rewrite universal_newlines_none.
  - unfold header. rewrite app_assoc_string.
    rewrite split_lines_first by reflexivity. rewrite split_lines_rows. reflexivity.
  - rewrite all_chars_app, rows_text_no_return. reflexivity.
Qed.

Lemma split_comma_output_row locus :
  Py.split_comma (output_row locus) =
    [Py.str (fst locus); " " +:+ Py.str (snd locus) +:+ nl].
Proof.
  unfold output_row.
  change (", " +:+ Py.str (snd locus) +:+ nl)
    with (String Py.comma (" " +:+ Py.str (snd locus) +:+ nl)).
  rewrite split_comma_first.
  - rewrite split_comma_none; [reflexivity|].
    change (" " +:+ Py.str (snd locus) +:+ nl)
      with (String " " (Py.str (snd locus) +:+ nl)).
    simpl. rewrite all_chars_app, str_all; [reflexivity|].
    number_char.
  - apply str_all. number_char.
Qed.

Lemma row_position_output_row locus :
  row_position (output_row locus) = Some (fst locus).
Proof.
  unfold row_position. rewrite split_comma_output_row. apply int_str.
Qed.

Lemma row_positions_output ps :
  row_positions (map output_row ps) = Some (map fst ps).
Proof.
  induction ps as [|locus ps IH]; [reflexivity|]. simpl.
  rewrite row_position_output_row, IH. reflexivity.
Qed.

Lemma row_positions_length rows ps :
  row_positions rows = Some ps -> length ps = length rows.
Proof.
  revert ps. induction rows as [|row rows IH]; intros ps; simpl.
  - intros [= <-]. reflexivity.
  - destruct (row_position row); [|discriminate].
    destruct (row_positions rows); [|discriminate].
    intros [= <-]. simpl. f_equal. apply IH. reflexivity.
Qed.

Lemma row_positions_lookup rows ps i row :
  row_positions rows = Some ps -> rows !! i = Some row ->
  exists p, ps !! i = Some p /\ row_position row = Some p.
Proof.
  revert ps i. induction rows as [|r rows IH]; intros ps i; simpl.
  - intros _ H. destruct i; discriminate H.
  - destruct (row_position r) as [p|] eqn:Er; [|discriminate].
    destruct (row_positions rows) as [ps'|]; [|discriminate].
    intros [= <-]. destruct i as [|i]; simpl.
    + intros [= <-]. eauto.
    + apply IH. reflexivity.
Qed.

Lemma row_positions_None rows :
  row_positions rows = None <-> exists row, row ∈ rows /\ row_position row = None.
Proof.
  induction rows as [|r rows IH]; simpl.
  - split; [discriminate|]. intros (row & H & _). inversion H.
  - destruct (row_position r) as [p|] eqn:Er.
    + destruct (row_positions rows) as [ps|].
      * split; [discriminate|]. intros (row & H & Hrow).
        apply elem_of_cons in H as [->|H]; [congruence|].
        assert (@None (list Z) = None) as Hn by reflexivity.
        destruct IH as [_ IH]. discriminate IH. eauto.
      * split; [|reflexivity]. intros _.
        destruct IH as [IH _]. destruct (IH eq_refl) as (row & H & Hrow).
        exists row. split; [apply list_elem_of_further, H|exact Hrow].
    + split; [|reflexivity]. intros _. exists r. split; [apply list_elem_of_here|exact Er].
Qed.

(** ** Rejected keys *)

Lemma key_fields_error k e :
  key_fields k = inl e -> e = ValueError \/ e = IndexError.
Proof.
  unfold key_fields. destruct (Py.split_comma k) as [|f0 [|f1 fs]];
    repeat (destruct (Py.int _)); intros [= <-]; auto.
Qed.

Lemma first_error_None keys :
  first_error keys = None <-> forall k, k ∈ keys -> well_formed_key k.
Proof.
  unfold well_formed_key. induction keys as [|k keys IH]; simpl.
  - split; [|reflexivity]. intros _ k H. inversion H.
  - destruct (key_fields k) as [e|[s l]] eqn:E.
    + split; [discriminate|]. intros H.
      destruct (H k (list_elem_of_here _ _)) as (s & l & Hk). congruence.
    + rewrite IH. split.
      * intros H k' Hk'. apply elem_of_cons in Hk' as [->|Hk']; eauto.
      * intros H k' Hk'. apply H, list_elem_of_further, Hk'.
Qed.

Lemma first_error_Some keys e :
  first_error keys = Some e -> exists k, k ∈ keys /\ key_fields k = inl e.
Proof.
  induction keys as [|k keys IH]; simpl; [discriminate|].
  destruct (key_fields k) as [e'|[s l]] eqn:E.
  - intros [= ->]. exists k. split; [apply list_elem_of_here|exact E].
  - intros H. destruct (IH H) as (k' & Hk' & He).
    exists k'. split; [apply list_elem_of_further, Hk'|exact He].
Qed.

Lemma first_error_rejected keys k e0 :
  k ∈ keys -> key_fields k = inl e0 ->
  exists e, first_error keys = Some e /\ (e = ValueError \/ e = IndexError).
Proof.
  intros Hk He0. destruct (first_error keys) as [e|] eqn:E.
  - exists e. split; [reflexivity|].
    destruct (first_error_Some _ _ E) as (k' & _ & He).
    eapply key_fields_error, He.
  - rewrite first_error_None in E. destruct (E k Hk) as (s & l & H). congruence.
Qed.

Lemma first_error_perm keys keys' :
  keys ≡ₚ keys' -> first_error keys = None -> first_error keys' = None.
Proof.
  intros Hp. rewrite !first_error_None. intros H k Hk. apply H.
  rewrite Hp. exact Hk.
Qed.

Lemma counted_reads_keys reads_text k :
  k ∈ read_keys reads_text -> k ∈ dict_keys (counted_reads reads_text).
Proof.
  intros Hk. unfold counted_reads.
  assert (Hocc : forall keys, k ∈ keys -> occurrences k keys <> 0%nat).
  { induction keys as [|k' keys IH]; intros H; [inversion H|]. simpl.
    apply elem_of_cons in H as [->|H].
    - rewrite String.eqb_refl. lia.
    - specialize (IH H). lia. }
  pose proof (count_keys_get (read_keys reads_text) [] k) as Hget.
  simpl in Hget. unfold counted in Hget.
  destruct (Nat.eqb_spec (occurrences k (read_keys reads_text)) 0) as [E|_].
  - exfalso. exact (Hocc _ Hk E).
  - apply dict_get_elem in Hget. unfold dict_keys.
    apply list_elem_of_fmap. eexists. split; [|exact Hget]. reflexivity.
Qed.

(** ** The whole run *)

Lemma annotate_fresh R ps :
  NoDup (dict_keys R) ->
  map (annotate R) (map (fun p => (p, 0)) ps) = annotated R ps.
Proof.
  intros Hnd. unfold annotated. rewrite map_map. apply map_ext. intros p.
  unfold annotate. simpl. rewrite coverage_keys_nodup by exact Hnd. reflexivity.
Qed.

Lemma counted_reads_nodup reads_text : NoDup (dict_keys (counted_reads reads_text)).
Proof. apply count_keys_nodup. apply NoDup_nil_2. Qed.

Lemma main_run loci_text reads_text :
  let R := counted_reads reads_text in
  match row_positions (loci_rows loci_text) with
  | None =>
      exists L', main loci_text reads_text initial_store =
                   Raised ValueError (Store L' [] None)
  | Some [] =>
      main loci_text reads_text initial_store =
        Done tt (Store [] R (Some (header +:+ rows_text [])))
  | Some (p :: ps) =>
      match first_error (dict_keys R) with
      | Some e =>
          exists L', main loci_text reads_text initial_store =
                       Raised e (Store L' R None)
      | None =>
          main loci_text reads_text initial_store =
            Done tt (Store (flat (annotated R (p :: ps))) R
                       (Some (header +:+ rows_text (annotated R (p :: ps)))))
      end
  end.
Proof.
  intros R. unfold main, initial_store.
  pose proof (init_poscov_for_spec (loci_rows loci_text) [] [] None) as Hload.
  fold (init_poscov loci_text) in Hload. unfold loci_rows in *.
  destruct (row_positions (Py.islice_from_1 (Py.readlines loci_text))) as [ps|].
  - rewrite (bind_done _ _ _ _ _ Hload). simpl app.
    rewrite (bind_done _ _ _ _ _ (init_reads_run reads_text _ _ _)).
    fold (counted_reads reads_text). fold R.
    destruct ps as [|p ps].
    + rewrite (bind_done _ _ _ _ _ (process_no_loci R None)).
      apply (output_poscov_flat [] R None).
    + destruct (first_error (dict_keys R)) as [e|] eqn:Herr.
      * destruct (process_flat_error p 0 (map (fun p => (p, 0)) ps) R None e Herr)
          as (L' & _ & Hrun).
        exists L'. apply bind_raised. exact Hrun.
      * pose proof (process_flat (map (fun p => (p, 0)) (p :: ps)) R None Herr) as Hrun.
        rewrite annotate_fresh in Hrun by apply counted_reads_nodup.
        unfold fresh. rewrite (bind_done _ _ _ _ _ Hrun).
        apply output_poscov_flat.
  - destruct Hload as [L' Hload]. exists L'. apply bind_raised. exact Hload.
Qed.

(** ** Coverage *)

Lemma coverage_sum_zero R p :
  (forall k, k ∈ dict_keys R -> ~ in_interval p k) -> coverage_sum R p = 0.
Proof.
  induction R as [|[k m] R IH]; simpl; intros H; [reflexivity|].
  destruct (in_intervalb p k) eqn:E.
  - exfalso. apply (H k); [apply list_elem_of_here|]. apply in_intervalb_spec, E.
  - rewrite IH; [reflexivity|]. intros k' Hk'. apply H, list_elem_of_further, Hk'.
Qed.

Lemma coverage_sum_app R1 R2 p :
  coverage_sum (R1 ++ R2) p = coverage_sum R1 p + coverage_sum R2 p.
Proof.
  induction R1 as [|[k m] R1 IH]; simpl; [reflexivity|]. rewrite IH. lia.
Qed.

Lemma coverage_sum_perm R R' p :
  R ≡ₚ R' -> coverage_sum R p = coverage_sum R' p.
Proof.
  induction 1 as [|[k m] R R' _ IH|[k m] [k' m'] R|R R' R'' _ IH1 _ IH2]; simpl.
  - reflexivity.
  - rewrite IH. reflexivity.
  - lia.
  - congruence.
Qed.

Lemma annotated_lookup R positions i p :
  positions !! i = Some p ->
  flat (annotated R positions) !! (2 * i)%nat = Some p /\
  flat (annotated R positions) !! (2 * i + 1)%nat = Some (coverage_sum R p).
Proof.
  intros H. rewrite flat_lookup_position, flat_lookup_coverage.
  unfold annotated. rewrite list_lookup_fmap, H. split; reflexivity.
Qed.

Lemma process_fresh positions R O :
  NoDup (dict_keys R) ->
  first_error (dict_keys R) = None ->
  process (Store (fresh positions) R O) =
    Done tt (Store (flat (annotated R positions)) R O).
Proof.
  intros Hnd Herr. unfold fresh. rewrite process_flat by exact Herr.
  rewrite annotate_fresh by exact Hnd. reflexivity.
Qed.

(** C1: after [process], the coverage of every locus loaded by
    [init_poscov] is the sum of the multiplicities of the stored reads whose
    interval [start, start + length) contains the position of the locus; a
    locus that no interval contains has coverage 0. *)
Theorem coverage_is_sum_of_multiplicities
    (positions : list Z) (R : list (string * Z)) (O : option string) :
  NoDup (dict_keys R) ->
  first_error (dict_keys R) = None ->
  process (Store (fresh positions) R O) =
    Done tt (Store (flat (annotated R positions)) R O) /\
  forall i p, positions !! i = Some p ->
    flat (annotated R positions) !! (2 * i)%nat = Some p /\
    flat (annotated R positions) !! (2 * i + 1)%nat = Some (coverage_sum R p) /\
    ((forall k, k ∈ dict_keys R -> ~ in_interval p k) ->
     flat (annotated R positions) !! (2 * i + 1)%nat = Some 0).
Proof.
  intros Hnd Herr. split; [apply process_fresh; assumption|].
  intros i p Hp. destruct (annotated_lookup R positions i p Hp) as [H1 H2].
  repeat split; [exact H1|exact H2|].
  intros Hnone. rewrite H2, coverage_sum_zero by exact Hnone. reflexivity.
Qed.

Lemma coverage_is_sum_of_multiplicities_witness :
  process (Store (fresh [100; 150; 200]) [("100,60", 2); ("140,20", 1)] None) =
    Done tt (Store [100; 2; 150; 3; 200; 0] [("100,60", 2); ("140,20", 1)] None).
Proof.
  refine (proj1 (coverage_is_sum_of_multiplicities
                   [100; 150; 200] [("100,60", 2); ("140,20", 1)] None _ _)).
  - apply (bool_decide_unpack _). vm_compute. exact I.
  - reflexivity.
Defined.

(** C3: the test of the annotation is start-inclusive and end-exclusive:
    a read with start [s] and length [l] covers [p] exactly when
    [s <= p < s + l], and only then is its count added; the read
    ["100,50"] covers 100 and 149 and does not cover 150. *)
Theorem membership_is_half_open
    (i : nat) (p : Z) (k : string) (s l c m : Z)
    (L : list Z) (R : list (string * Z)) (O : option string) :
  key_fields k = inr (s, l) ->
  L !! (i + 1)%nat = Some c ->
  dict_get R k = Some m ->
  (covers p s (s + l) = true <-> s <= p < s + l) /\
  (s <= p < s + l ->
   visit_key i p k (Store L R O) =
     Done tt (Store (<[(i + 1)%nat := c + m]> L) R O)) /\
  (~ (s <= p < s + l) -> visit_key i p k (Store L R O) = Done tt (Store L R O)) /\
  key_fields "100,50" = inr (100, 50) /\
  covers 100 100 (100 + 50) = true /\
  covers 149 100 (100 + 50) = true /\
  covers 150 100 (100 + 50) = false.
Proof.
  intros Hk Hc Hm.
  pose proof (visit_key_fields i p k s l (Store L R O) Hk) as Hv.
  simpl in Hv. rewrite Hc, Hm in Hv.
  split; [apply covers_spec|]. split; [|split].
  - intros Hin. apply covers_spec in Hin. rewrite Hin in Hv. exact Hv.
  - intros Hout. destruct (covers p s (s + l)) eqn:E; [|exact Hv].
    apply covers_spec in E. contradiction.
  - repeat split; reflexivity.
Qed.

Lemma membership_is_half_open_witness :
  visit_key 0 149 "100,50" (Store [149; 0] [("100,50", 3)] None) =
    Done tt (Store [149; 3] [("100,50", 3)] None) /\
  visit_key 0 150 "100,50" (Store [150; 0] [("100,50", 3)] None) =
    Done tt (Store [150; 0] [("100,50", 3)] None).
Proof.
  split.
  - refine (proj1 (proj2 (membership_is_half_open
             0 149 "100,50" 100 50 0 3 [149; 0] [("100,50", 3)] None _ _ _)) _);
      [reflexivity..|lia].
  - refine (proj1 (proj2 (proj2 (membership_is_half_open
             0 150 "100,50" 100 50 0 3 [150; 0] [("100,50", 3)] None _ _ _))) _);
      [reflexivity..|lia].
Defined.

(** C8: [process] changes nothing but coverages: it ends (normally or
    with an exception) in a store whose dict of reads and output file are
    those it started with and whose list of loci has the same length and
    the same value at every even index, where the positions are. *)
Theorem annotation_changes_only_coverage (st : store) :
  ends_in (only_coverage_changed st) (process st).
Proof. apply process_ends_in. Qed.

(** C10: a read whose length is zero or negative covers no position: the
    test fails for every locus, visiting its key leaves the store as it
    is, and [process] computes the same loci with the key in the dict,
    whatever its multiplicity, as without it. *)
Theorem empty_interval_contributes_nothing
    (k : string) (s l m : Z) (R1 R2 : list (string * Z))
    (ps : list (Z * Z)) (O : option string) :
  key_fields k = inr (s, l) ->
  l <= 0 ->
  NoDup (dict_keys (R1 ++ (k, m) :: R2)) ->
  first_error (dict_keys (R1 ++ R2)) = None ->
  (forall p, covers p s (s + l) = false /\ ~ in_interval p k) /\
  (forall i p st, visit_key i p k st = Done tt st) /\
  exists L',
    process (Store (flat ps) (R1 ++ (k, m) :: R2) O) =
      Done tt (Store L' (R1 ++ (k, m) :: R2) O) /\
    process (Store (flat ps) (R1 ++ R2) O) = Done tt (Store L' (R1 ++ R2) O).
Proof.
  intros Hk Hl Hnd Herr.
  assert (Hcov : forall p, covers p s (s + l) = false).
  { intros p. destruct (covers p s (s + l)) eqn:E; [|reflexivity].
    apply covers_spec in E. lia. }
  assert (Hno : forall p, in_intervalb p k = false).
  { intros p. rewrite <- (covers_in_intervalb p k s l Hk). apply Hcov. }
  split; [|split].
  - intros p. split; [apply Hcov|].
    intros Hin. apply in_intervalb_spec in Hin. rewrite Hno in Hin. discriminate.
  - intros i p st. rewrite (visit_key_fields i p k s l st Hk), Hcov. reflexivity.
  - assert (Hnd' : NoDup (dict_keys (R1 ++ R2))).
    { unfold dict_keys in *. rewrite map_app in *. simpl in Hnd.
      apply NoDup_app in Hnd as (H1 & H2 & H3).
      apply NoDup_cons in H3 as [_ H3].
      apply NoDup_app. repeat split; [exact H1| |exact H3].
      intros x Hx Hx'. apply (H2 x Hx). apply list_elem_of_further, Hx'. }
    assert (Herr' : first_error (dict_keys (R1 ++ (k, m) :: R2)) = None).
    { rewrite first_error_None in *. intros k' Hk'.
      unfold dict_keys in *. rewrite map_app in *. simpl in Hk'.
      apply elem_of_app in Hk' as [Hk'|Hk'].
      - apply Herr. apply elem_of_app. auto.
      - apply elem_of_cons in Hk' as [->|Hk'].
        + exists s, l. exact Hk.
        + apply Herr. apply elem_of_app. auto. }
    exists (flat (map (annotate (R1 ++ R2)) ps)). split.
    + rewrite process_flat by exact Herr'. do 3 f_equal.
      apply map_ext. intros [p c]. unfold annotate. simpl.
      rewrite !coverage_keys_nodup by assumption.
      rewrite !coverage_sum_app. simpl. rewrite Hno. reflexivity.
    + apply process_flat, Herr.
Qed.

Lemma empty_interval_contributes_nothing_witness :
  exists L',
    process (Store [100; 0] [("100,60", 2); ("100,-5", 7); ("140,20", 1)] None) =
      Done tt (Store L' [("100,60", 2); ("100,-5", 7); ("140,20", 1)] None) /\
    process (Store [100; 0] [("100,60", 2); ("140,20", 1)] None) =
      Done tt (Store L' [("100,60", 2); ("140,20", 1)] None).
Proof.
  refine (proj2 (proj2 (empty_interval_contributes_nothing
            "100,-5" 100 (-5) 7 [("100,60", 2)] [("140,20", 1)] [(100, 0)] None
            _ _ _ _))).
  - reflexivity.
  - lia.
  - apply (bool_decide_unpack _). vm_compute. exact I.
  - reflexivity.
Defined.

(** ** The dict of reads *)

Lemma counted_reads_get reads_text k :
  dict_get (counted_reads reads_text) k =
    if Nat.eqb (occurrences k (read_keys reads_text)) 0 then None
    else Some (Z.of_nat (occurrences k (read_keys reads_text))).
Proof. unfold counted_reads. rewrite count_keys_get. reflexivity. Qed.

(** C2: [init_reads] takes as key each line after the header with its
    trailing newlines removed, never looks inside it, and maps every
    distinct key to the number of times it occurs: stored counts are
    positive, and a key that occurs [N] times adds [N] to the coverage of
    a locus it covers. *)
Theorem init_reads_counts_occurrences
    (reads_text : string) (L : list Z) (O : option string) :
  let keys := read_keys reads_text in
  let R := counted_reads reads_text in
  init_reads reads_text (Store L [] O) = Done tt (Store L R O) /\
  NoDup (dict_keys R) /\
  (forall k, dict_get R k =
     if Nat.eqb (occurrences k keys) 0 then None
     else Some (Z.of_nat (occurrences k keys))) /\
  (forall k m, (k, m) ∈ R -> m = Z.of_nat (occurrences k keys) /\ 1 <= m) /\
  (forall i p k s l c,
     k ∈ keys -> key_fields k = inr (s, l) -> s <= p < s + l ->
     L !! (i + 1)%nat = Some c ->
     visit_key i p k (Store L R O) =
       Done tt (Store (<[(i + 1)%nat := c + Z.of_nat (occurrences k keys)]> L) R O)) /\
  (forall line, exists removed,
     line = Py.rstrip_newline line +:+ removed /\
     all_chars is_newline removed = true /\
     forall body c, Py.rstrip_newline line = body +:+ String c "" ->
                    is_newline c = false).
Proof.
  intros keys R.
  assert (Hget : forall k m, (k, m) ∈ R ->
            m = Z.of_nat (occurrences k keys) /\ 1 <= m).
  { intros k m Hin.
    pose proof (dict_get_nodup R k m (counted_reads_nodup reads_text) Hin) as Hm.
    unfold R in Hm. rewrite counted_reads_get in Hm. fold keys in Hm.
    destruct (Nat.eqb_spec (occurrences k keys) 0); [discriminate|].
    injection Hm as <-. split; [reflexivity|lia]. }
  split; [apply init_reads_run|]. split; [apply counted_reads_nodup|].
  split; [apply counted_reads_get|]. split; [exact Hget|]. split.
  - intros i p k s l c Hk Hf Hp Hc.
    pose proof (counted_reads_keys reads_text k Hk) as Hin.
    apply dict_get_keys in Hin as [m Hm]. fold R in Hm.
    destruct (Hget k m (dict_get_elem _ _ _ Hm)) as [<- _].
    pose proof (visit_key_fields i p k s l (Store L R O) Hf) as Hv.
    simpl in Hv. rewrite Hc, Hm in Hv.
    apply covers_spec in Hp. rewrite Hp in Hv. exact Hv.
  - intros line. apply rstrip_by_spec.
Qed.

Lemma init_reads_counts_occurrences_witness :
  init_reads ("start,length" +:+ nl +:+ "100,60" +:+ nl +:+ "140,20" +:+ nl
                +:+ "100,60" +:+ nl) (Store [120; 5] [] None) =
    Done tt (Store [120; 5] [("100,60", 2); ("140,20", 1)] None) /\
  visit_key 0 120 "100,60" (Store [120; 5] [("100,60", 2); ("140,20", 1)] None) =
    Done tt (Store [120; 7] [("100,60", 2); ("140,20", 1)] None).
Proof.
  pose proof (init_reads_counts_occurrences
                ("start,length" +:+ nl +:+ "100,60" +:+ nl +:+ "140,20" +:+ nl
                   +:+ "100,60" +:+ nl) [120; 5] None) as (H1 & _ & _ & _ & H5 & _).
  split; [exact H1|].
  refine (H5 0%nat 120 "100,60" 100 60 5 _ _ _ _).
  - apply (bool_decide_unpack _). vm_compute. exact I.
  - reflexivity.
  - lia.
  - reflexivity.
Defined.

(** C9: [init_reads] raises nothing, whatever the lines are; a key that
    lines 212-215 reject makes [process] raise, at the first locus. *)
Theorem init_reads_never_raises
    (reads_text : string) (L : list Z) (R : list (string * Z)) (O : option string) :
  let R' := fold_left count_key (read_keys reads_text) R in
  init_reads reads_text (Store L R O) = Done tt (Store L R' O) /\
  forall p c ps k e0,
    k ∈ dict_keys R' -> key_fields k = inl e0 ->
    exists e L',
      (e = ValueError \/ e = IndexError) /\
      first_error (dict_keys R') = Some e /\
      process (Store (flat ((p, c) :: ps)) R' O) = Raised e (Store L' R' O).
Proof.
  intros R'. split; [apply init_reads_run|].
  intros p c ps k e0 Hk He0.
  destruct (first_error_rejected _ k e0 Hk He0) as (e & Herr & He).
  destruct (process_flat_error p c ps R' O e Herr) as (L' & _ & Hrun).
  exists e, L'. auto.
Qed.

Lemma init_reads_never_raises_witness :
  init_reads ("start,length" +:+ nl +:+ "not a read" +:+ nl) (Store [100; 0] [] None) =
    Done tt (Store [100; 0] [("not a read", 1)] None) /\
  exists e L',
    (e = ValueError \/ e = IndexError) /\
    first_error ["not a read"] = Some e /\
    process (Store [100; 0] [("not a read", 1)] None) =
      Raised e (Store L' [("not a read", 1)] None).
Proof.
  pose proof (init_reads_never_raises
                ("start,length" +:+ nl +:+ "not a read" +:+ nl) [100; 0] [] None)
    as [H1 H2].
  split; [exact H1|].
  refine (H2 100 0 [] "not a read" ValueError _ _).
  - apply (bool_decide_unpack _). vm_compute. exact I.
  - reflexivity.
Defined.

(** ** Order of iteration *)

Lemma process_flat_sum ps R O :
  NoDup (dict_keys R) ->
  first_error (dict_keys R) = None ->
  process (Store (flat ps) R O) =
    Done tt (Store (flat (map (add_coverage R) ps)) R O).
Proof.
  intros Hnd Herr. rewrite process_flat by exact Herr. do 3 f_equal.
  apply map_ext. intros [p c]. unfold annotate, add_coverage. simpl.
  rewrite coverage_keys_nodup by exact Hnd. reflexivity.
Qed.

Lemma add_coverage_perm R R' :
  R ≡ₚ R' -> forall ps, map (add_coverage R') ps = map (add_coverage R) ps.
Proof.
  intros Hp ps. apply map_ext. intros locus. unfold add_coverage.
  rewrite (coverage_sum_perm R R' _ Hp). reflexivity.
Qed.

(** C7: the coverage [process] computes for a locus does not depend on the
    order of the keys in the dict nor on the order of the loci in the
    list: when a run ends normally, so does the run on any permutation of
    the reads and of the loci, and every locus gets the same coverage. *)
Theorem coverage_independent_of_order
    (ps ps' : list (Z * Z)) (R R' : list (string * Z)) (O : option string)
    (st : store) :
  ps ≡ₚ ps' ->
  R ≡ₚ R' ->
  NoDup (dict_keys R) ->
  process (Store (flat ps) R O) = Done tt st ->
  st = Store (flat (map (add_coverage R) ps)) R O /\
  process (Store (flat ps) R' O) =
    Done tt (Store (flat (map (add_coverage R) ps)) R' O) /\
  process (Store (flat ps') R O) =
    Done tt (Store (flat (map (add_coverage R) ps')) R O) /\
  process (Store (flat ps') R' O) =
    Done tt (Store (flat (map (add_coverage R) ps')) R' O).
Proof.
  intros Hps HR Hnd Hrun. destruct ps as [|[p c] ps0].
  - apply Permutation_nil_l in Hps. subst ps'.
    simpl in *. rewrite process_no_loci in *. injection Hrun as <-. auto.
  - assert (Herr : first_error (dict_keys R) = None).
    { destruct (first_error (dict_keys R)) as [e|] eqn:E; [|reflexivity].
      destruct (process_flat_error p c ps0 R O e E) as (L' & _ & Hbad).
      rewrite Hbad in Hrun. discriminate Hrun. }
    assert (Hkeys : dict_keys R ≡ₚ dict_keys R').
    { unfold dict_keys. apply Permutation_map, HR. }
    assert (Hnd' : NoDup (dict_keys R')) by (rewrite <- Hkeys; exact Hnd).
    assert (Herr' : first_error (dict_keys R') = None)
      by (eapply first_error_perm; eassumption).
    rewrite process_flat_sum in Hrun by assumption. injection Hrun as <-.
    rewrite <- !(add_coverage_perm R R' HR).
    rewrite !process_flat_sum by assumption.
    rewrite !(add_coverage_perm R R' HR). auto.
Qed.

Lemma coverage_independent_of_order_witness :
  process (Store [150; 0; 100; 0] [("140,20", 1); ("100,60", 2)] None) =
    Done tt (Store [150; 3; 100; 2] [("140,20", 1); ("100,60", 2)] None).
Proof.
  refine (proj2 (proj2 (proj2 (coverage_independent_of_order
            [(100, 0); (150, 0)] [(150, 0); (100, 0)]
            [("100,60", 2); ("140,20", 1)] [("140,20", 1); ("100,60", 2)] None
            (Store [100; 2; 150; 3] [("100,60", 2); ("140,20", 1)] None)
            _ _ _ _)))).
  - apply perm_swap.
  - apply perm_swap.
  - apply (bool_decide_unpack _). vm_compute. exact I.
  - vm_compute. reflexivity.
Defined.

(** ** Rows in, rows out *)

Lemma data_rows_table ps :
  data_rows (header +:+ rows_text ps) = map output_row ps.
Proof. unfold data_rows. rewrite readlines_table. reflexivity. Qed.

Lemma init_poscov_positions loci_text ps :
  row_positions (loci_rows loci_text) = Some ps ->
  init_poscov loci_text initial_store = Done tt (Store (fresh ps) [] None).
Proof.
  intros H. pose proof (init_poscov_for_spec (loci_rows loci_text) [] [] None) as Hl.
  rewrite H in Hl. exact Hl.
Qed.

(** C4: every row of the loci file after the header yields one locus, in
    order and with duplicates, and the table written has one data row for
    each of them, in the same order: as many data rows out as rows in. *)
Theorem one_output_row_per_loci_row
    (loci_text reads_text : string) (ps : list Z) :
  let R := counted_reads reads_text in
  row_positions (loci_rows loci_text) = Some ps ->
  (ps = [] \/ first_error (dict_keys R) = None) ->
  exists text,
    main loci_text reads_text initial_store =
      Done tt (Store (flat (annotated R ps)) R (Some text)) /\
    init_poscov loci_text initial_store = Done tt (Store (fresh ps) [] None) /\
    length ps = length (loci_rows loci_text) /\
    Py.readlines text = header :: map output_row (annotated R ps) /\
    length (data_rows text) = length (loci_rows loci_text) /\
    forall i row, loci_rows loci_text !! i = Some row ->
      exists p, row_position row = Some p /\ ps !! i = Some p /\
        data_rows text !! i = Some (output_row (p, coverage_sum R p)).
Proof.
  intros R Hrows Hok. exists (header +:+ rows_text (annotated R ps)).
  pose proof (row_positions_length _ _ Hrows) as Hlen.
  split; [|split; [|split; [|split; [|split]]]].
  - pose proof (main_run loci_text reads_text) as Hrun. simpl in Hrun.
    fold R in Hrun. rewrite Hrows in Hrun.
    destruct ps as [|p ps0]; [exact Hrun|].
    destruct Hok as [Hnil|Herr]; [discriminate|]. rewrite Herr in Hrun. exact Hrun.
  - apply init_poscov_positions, Hrows.
  - exact Hlen.
  - apply readlines_table.
  - rewrite data_rows_table, length_map. unfold annotated. rewrite length_map.
    exact Hlen.
  - intros i row Hrow.
    destruct (row_positions_lookup _ _ _ _ Hrows Hrow) as (p & Hp & Hpos).
    exists p. repeat split; [exact Hpos|exact Hp|].
    rewrite data_rows_table. unfold annotated.
    rewrite !list_lookup_fmap, Hp. reflexivity.
Qed.

Lemma one_output_row_per_loci_row_witness :
  exists text,
    main ("position" +:+ nl +:+ "150" +:+ nl +:+ "100,x" +:+ nl +:+ "150" +:+ nl)
         ("start,length" +:+ nl +:+ "100,60" +:+ nl +:+ "100,60" +:+ nl
            +:+ "140,20" +:+ nl) initial_store =
      Done tt (Store [150; 3; 100; 2; 150; 3] [("100,60", 2); ("140,20", 1)]
                 (Some text)) /\
    Py.readlines text =
      [header; "150, 3" +:+ nl; "100, 2" +:+ nl; "150, 3" +:+ nl].
Proof.
  destruct (one_output_row_per_loci_row
              ("position" +:+ nl +:+ "150" +:+ nl +:+ "100,x" +:+ nl +:+ "150" +:+ nl)
              ("start,length" +:+ nl +:+ "100,60" +:+ nl +:+ "100,60" +:+ nl
                 +:+ "140,20" +:+ nl) [150; 100; 150])
    as (text & Hmain & _ & _ & Hlines & _).
  - reflexivity.
  - right. reflexivity.
  - exists text. split; [exact Hmain|exact Hlines].
Defined.

(** ** Failures *)

(** C5, the claim as stated fails: with no loci row the keys are never
    parsed, so a reads file with a key that is no pair of integers raises
    nothing and the output file is written. *)
Lemma rejected_key_without_loci :
  key_fields "abc" = inl ValueError /\
  main ("position" +:+ nl) ("start,length" +:+ nl +:+ "abc" +:+ nl) initial_store =
    Done tt (Store [] [("abc", 1)] (Some header)) /\
  ~ (exists e st',
       main ("position" +:+ nl) ("start,length" +:+ nl +:+ "abc" +:+ nl)
            initial_store = Raised e st').
Proof.
  split; [reflexivity|]. split; [reflexivity|].
  intros (e & st' & H). vm_compute in H. discriminate H.
Qed.

(** C5, amended: a loci row whose position [int] rejects makes the run
    raise [ValueError]; when there is at least one locus, a key of the reads
    file whose start or length is missing or rejected makes it raise
    [ValueError] or [IndexError]; with no locus the keys are not parsed and
    the header alone is written.  Whenever the run raises, the output file
    has not been created. *)
Theorem parse_failure_aborts_before_output (loci_text reads_text : string) :
  let R := counted_reads reads_text in
  (forall row, row ∈ loci_rows loci_text -> row_position row = None ->
     exists L', main loci_text reads_text initial_store =
                  Raised ValueError (Store L' [] None)) /\
  (forall p ps k e0,
     row_positions (loci_rows loci_text) = Some (p :: ps) ->
     k ∈ read_keys reads_text -> key_fields k = inl e0 ->
     exists e L', (e = ValueError \/ e = IndexError) /\
       main loci_text reads_text initial_store = Raised e (Store L' R None)) /\
  (row_positions (loci_rows loci_text) = Some [] ->
     main loci_text reads_text initial_store = Done tt (Store [] R (Some header))) /\
  (forall e st', main loci_text reads_text initial_store = Raised e st' ->
     output_file st' = None).
Proof.
  intros R. pose proof (main_run loci_text reads_text) as Hrun. simpl in Hrun.
  fold R in Hrun. split; [|split; [|split]].
  - intros row Hin Hrow.
    assert (Hnone : row_positions (loci_rows loci_text) = None).
    { apply row_positions_None. eauto. }
    rewrite Hnone in Hrun. exact Hrun.
  - intros p ps k e0 Hrows Hk He0. rewrite Hrows in Hrun.
    destruct (first_error_rejected (dict_keys R) k e0) as (e & Herr & He);
      [apply counted_reads_keys, Hk|exact He0|].
    rewrite Herr in Hrun. destruct Hrun as [L' Hrun]. exists e, L'. auto.
  - intros Hrows. rewrite Hrows in Hrun. exact Hrun.
  - intros e st' Hraised.
    destruct (row_positions (loci_rows loci_text)) as [[|p ps]|].
    + rewrite Hrun in Hraised. discriminate Hraised.
    + destruct (first_error (dict_keys R)) as [e'|].
      * destruct Hrun as [L' Hrun]. rewrite Hrun in Hraised.
        injection Hraised as _ <-. reflexivity.
      * rewrite Hrun in Hraised. discriminate Hraised.
    + destruct Hrun as [L' Hrun]. rewrite Hrun in Hraised.
      injection Hraised as _ <-. reflexivity.
Qed.

Lemma parse_failure_aborts_before_output_witness :
  (exists L', main ("position" +:+ nl +:+ "1x" +:+ nl)
                   ("start,length" +:+ nl +:+ "100,60" +:+ nl) initial_store =
                Raised ValueError (Store L' [] None)) /\
  (exists e L', (e = ValueError \/ e = IndexError) /\
     main ("position" +:+ nl +:+ "100" +:+ nl)
          ("start,length" +:+ nl +:+ "100" +:+ nl) initial_store =
       Raised e (Store L' [("100", 1)] None)).
Proof.
  split.
  - refine (proj1 (parse_failure_aborts_before_output
                     ("position" +:+ nl +:+ "1x" +:+ nl)
                     ("start,length" +:+ nl +:+ "100,60" +:+ nl))
                  ("1x" +:+ nl) _ _).
    + apply (bool_decide_unpack _). vm_compute. exact I.
    + reflexivity.
  - refine (proj1 (proj2 (parse_failure_aborts_before_output
                     ("position" +:+ nl +:+ "100" +:+ nl)
                     ("start,length" +:+ nl +:+ "100" +:+ nl)))
                  100 [] "100" IndexError _ _ _).
    + reflexivity.
    + apply (bool_decide_unpack _). vm_compute. exact I.
    + reflexivity.
Defined.

(** ** Writing and reading back *)

(** C6, the claim as stated fails: read back as a loci file, the table
    written for a locus with coverage 2 gives that locus with coverage 0. *)
Lemma reparsed_coverage_is_reset :
  output_poscov (Store [100; 2] [] None) =
    Done tt (Store [100; 2] [] (Some (header +:+ "100, 2" +:+ nl))) /\
  init_poscov (header +:+ "100, 2" +:+ nl) initial_store =
    Done tt (Store [100; 0] [] None) /\
  init_poscov (header +:+ "100, 2" +:+ nl) initial_store <>
    Done tt (Store [100; 2] [] None).
Proof.
  split; [reflexivity|]. split; [reflexivity|].
  intros H. vm_compute in H. discriminate H.
Qed.

(** C6, amended: the table written by [output_poscov], read back by
    [init_poscov] with its first row as header, gives the same positions in
    the same order, each with coverage 0.  The coverages are in the text,
    as the second field of each data row, which [int] reads back; a loci
    file has no such field to load, so they come back only when all are 0. *)
Theorem table_reparses_to_positions
    (ps : list (Z * Z)) (R : list (string * Z)) (O : option string) :
  let text := header +:+ rows_text ps in
  output_poscov (Store (flat ps) R O) = Done tt (Store (flat ps) R (Some text)) /\
  init_poscov text initial_store = Done tt (Store (fresh (map fst ps)) [] None) /\
  (forall i locus, ps !! i = Some locus ->
     exists row field0 field1,
       data_rows text !! i = Some row /\
       Py.split_comma row = [field0; field1] /\
       Py.int field0 = Some (fst locus) /\ Py.int field1 = Some (snd locus)) /\
  (Forall (fun locus => snd locus = 0) ps -> fresh (map fst ps) = flat ps).
Proof.
  intros text. split; [apply output_poscov_flat|]. split; [|split].
  - apply init_poscov_positions. unfold loci_rows. fold (data_rows text).
    unfold text. rewrite data_rows_table. apply row_positions_output.
  - intros i locus Hi. unfold text. rewrite data_rows_table.
    exists (output_row locus), (Py.str (fst locus)),
      (" " +:+ Py.str (snd locus) +:+ nl).
    rewrite list_lookup_fmap, Hi. split; [reflexivity|].
    split; [apply split_comma_output_row|].
    split; [apply int_str|apply int_space_str_nl].
  - intros Hzero. unfold fresh. f_equal.
    induction Hzero as [|[p c] ps0 Hc _ IH]; [reflexivity|].
    simpl in *. subst c. rewrite IH. reflexivity.
Qed.

Lemma table_reparses_to_positions_witness :
  init_poscov (header +:+ "100, 2" +:+ nl +:+ "-7, 0" +:+ nl) initial_store =
    Done tt (Store [100; 0; -7; 0] [] None) /\
  fresh [5; 6] = [5; 0; 6; 0].
Proof.
  split.
  - exact (proj1 (proj2 (table_reparses_to_positions [(100, 2); (-7, 0)] [] None))).
  - refine (proj2 (proj2 (proj2
             (table_reparses_to_positions [(5, 0); (6, 0)] [] None))) _).
    repeat constructor.
Defined.

(** * Further properties of the program *)

(** ** Counting the records *)

Lemma dict_keys_count_key R k :
  dict_keys (count_key R k) =
    if bool_decide (k ∈ dict_keys R) then dict_keys R else dict_keys R ++ [k].
Proof.
  unfold count_key. rewrite dict_keys_set.
  destruct (dict_get R k) as [v|] eqn:E.
  - rewrite bool_decide_eq_true_2; [reflexivity|].
    apply dict_get_elem in E. unfold dict_keys.
    apply list_elem_of_fmap. exists (k, v). auto.
  - rewrite bool_decide_eq_false_2; [reflexivity|]. apply dict_get_None, E.
Qed.

Lemma count_keys_order keys : forall R,
  dict_keys (fold_left count_key keys R) =
    dict_keys R ++ distinct_in_order keys (dict_keys R).
Proof.
  induction keys as [|k keys IH]; intros R; simpl.
  - rewrite app_nil_r. reflexivity.
  - rewrite IH, dict_keys_count_key.
    destruct (bool_decide (k ∈ dict_keys R)); [reflexivity|].
    rewrite <- app_assoc. reflexivity.
Qed.

Lemma init_reads_counting_run lines : forall n L R O,
  init_reads_counting lines n (Store L R O) =
    Done (n + Z.of_nat (length lines))
         (Store L (fold_left count_key (map Py.rstrip_newline lines) R) O).
Proof.
  induction lines as [|line lines IH]; intros n L R O.
  - simpl. unfold ret. do 2 f_equal. lia.
  - simpl init_reads_counting. unfold bind at 1, reads_contains at 1.
    simpl reads. simpl map. simpl fold_left.
    replace (n + Z.of_nat (length (line :: lines)))
      with ((n + 1) + Z.of_nat (length lines)) by (simpl length; lia).
    rewrite <- IH. unfold count_key.
    destruct (dict_get R (Py.rstrip_newline line)) as [v|] eqn:E.
    + rewrite bool_decide_eq_true_2 by eauto.
      unfold bind, reads_get, reads_set. simpl. rewrite E. reflexivity.
    + rewrite bool_decide_eq_false_2 by (intros [? ?]; discriminate).
      reflexivity.
Qed.

Lemma length_dict_keys (R : list (string * Z)) : length R = length (dict_keys R).
Proof. unfold dict_keys. rewrite length_map. reflexivity. Qed.

(** X1: [init_reads] changes the store as its loop does, and the two
    lines it prints give the number of lines after the header and the
    number of entries of the dict: those it had plus the distinct new
    keys. *)
Theorem init_reads_report_counts
    (reads_text : string) (L : list Z) (R : list (string * Z))
    (O : option string) :
  let keys := read_keys reads_text in
  let R' := fold_left count_key keys R in
  init_reads_report reads_text (Store L R O) =
    Done (print_text [Py.str (Z.of_nat (length (data_rows reads_text)));
                      "records read"]
          +:+ print_text
                [Py.str (Z.of_nat (length R
                           + length (distinct_in_order keys (dict_keys R))));
                 "unique records"])
         (Store L R' O) /\
  init_reads reads_text (Store L R O) = Done tt (Store L R' O) /\
  (length (distinct_in_order keys (dict_keys R)) <= length (data_rows reads_text))%nat.
Proof.
  intros keys R'. split; [|split].
  - unfold init_reads_report.
    rewrite (bind_done _ _ _ _ _ (init_reads_counting_run _ 0 L R O)).
    unfold bind, reads_len, ret. simpl reads. fold (data_rows reads_text).
    change (map Py.rstrip_newline (data_rows reads_text)) with keys.
    fold R'. rewrite (length_dict_keys R'). unfold R'.
    rewrite count_keys_order, length_app, <- length_dict_keys. reflexivity.
  - apply init_reads_run.
  - unfold keys, read_keys. fold (data_rows reads_text).
    generalize (dict_keys R) as seen. generalize (data_rows reads_text) as rows.
    induction rows as [|line rows IH]; intros seen; simpl; [lia|].
    destruct (bool_decide _); simpl;
      [specialize (IH seen)|specialize (IH (seen ++ [Py.rstrip_newline line]))];
      lia.
Qed.

Lemma total_count_set R k v :
  total_count (dict_set R k v) = total_count R + v - default 0 (dict_get R k).
Proof.
  induction R as [|[k' v'] R IH]; simpl; [lia|].
  destruct (String.eqb k' k); simpl; [lia|]. rewrite IH. lia.
Qed.

Lemma total_count_count_key R k :
  total_count (count_key R k) = total_count R + 1.
Proof.
  unfold count_key. rewrite total_count_set.
  destruct (dict_get R k); simpl; lia.
Qed.

Lemma total_count_fold keys : forall R,
  total_count (fold_left count_key keys R) =
    total_count R + Z.of_nat (length keys).
Proof.
  induction keys as [|k keys IH]; intros R; simpl fold_left; [simpl; lia|].
  rewrite IH, total_count_count_key. simpl length. lia.
Qed.

(** X2: [init_reads] loses no record: the counts of the dict it builds
    add up to the number of lines after the header, and reading a second
    file into the same dict adds the number of its lines. *)
Theorem counts_add_up_to_records
    (reads_text more_text : string) (L : list Z) (O : option string) :
  total_count (counted_reads reads_text) =
    Z.of_nat (length (data_rows reads_text)) /\
  exists R',
    (init_reads reads_text ;; init_reads more_text) (Store L [] O) =
      Done tt (Store L R' O) /\
    total_count R' =
      Z.of_nat (length (data_rows reads_text) + length (data_rows more_text)).
Proof.
  assert (Hlen : forall t, length (read_keys t) = length (data_rows t)).
  { intros t. unfold read_keys. rewrite length_map. reflexivity. }
  split.
  - unfold counted_reads. rewrite total_count_fold, Hlen. simpl. lia.
  - exists (fold_left count_key (read_keys more_text) (counted_reads reads_text)).
    split.
    + rewrite (bind_done _ _ _ _ _ (init_reads_run reads_text L [] O)).
      apply init_reads_run.
    + rewrite total_count_fold. unfold counted_reads.
      rewrite total_count_fold, !Hlen. simpl. lia.
Qed.

(** ** The order of the keys *)

Lemma first_error_distinct keys : forall seen,
  first_error seen = None ->
  first_error (distinct_in_order keys seen) = first_error keys.
Proof.
  induction keys as [|k keys IH]; intros seen Hseen; simpl; [reflexivity|].
  destruct (bool_decide_reflect (k ∈ seen)) as [Hin|Hout].
  - rewrite first_error_None in Hseen. destruct (Hseen k Hin) as (s & l & ->).
    apply IH. apply first_error_None. exact Hseen.
  - simpl. destruct (key_fields k) as [e|[s l]] eqn:Hk; [reflexivity|].
    apply IH. apply first_error_None. intros k' Hk'.
    apply elem_of_app in Hk' as [Hk'|Hk'].
    + rewrite first_error_None in Hseen. apply Hseen, Hk'.
    + apply list_elem_of_singleton in Hk'. subst k'. exists s, l. exact Hk.
Qed.

Lemma counted_reads_order reads_text :
  dict_keys (counted_reads reads_text) =
    distinct_in_order (read_keys reads_text) [].
Proof. unfold counted_reads. rewrite count_keys_order. reflexivity. Qed.

(** X3: the dict keeps its keys in the order of their first occurrence
    in the reads file, which is the order [process] visits them in; so,
    when there is a locus, the exception the run raises is the one of the
    first line of the reads file that lines 212-215 reject. *)
Theorem first_rejected_record_raises
    (loci_text reads_text : string) (p : Z) (ps : list Z) (e : exn) :
  row_positions (loci_rows loci_text) = Some (p :: ps) ->
  first_error (read_keys reads_text) = Some e ->
  dict_keys (counted_reads reads_text) =
    distinct_in_order (read_keys reads_text) [] /\
  exists L',
    main loci_text reads_text initial_store =
      Raised e (Store L' (counted_reads reads_text) None).
Proof.
  intros Hrows Herr. split; [apply counted_reads_order|].
  pose proof (main_run loci_text reads_text) as Hrun. cbv zeta in Hrun.
  rewrite Hrows, counted_reads_order in Hrun.
  rewrite first_error_distinct, Herr in Hrun by reflexivity. exact Hrun.
Qed.

Lemma first_rejected_record_raises_witness :
  exists L',
    main ("position" +:+ nl +:+ "100" +:+ nl)
         ("start,length" +:+ nl +:+ "100,60" +:+ nl +:+ "7" +:+ nl
            +:+ "100,60" +:+ nl +:+ "x,1" +:+ nl) initial_store =
      Raised IndexError (Store L' [("100,60", 2); ("7", 1); ("x,1", 1)] None).
Proof.
  refine (proj2 (first_rejected_record_raises
            ("position" +:+ nl +:+ "100" +:+ nl)
            ("start,length" +:+ nl +:+ "100,60" +:+ nl +:+ "7" +:+ nl
               +:+ "100,60" +:+ nl +:+ "x,1" +:+ nl) 100 [] IndexError _ _));
    reflexivity.
Defined.

(** ** Coverage and the raw records *)

Lemma coverage_sum_set R k v p :
  coverage_sum (dict_set R k v) p =
    coverage_sum R p
    + (if in_intervalb p k then v - default 0 (dict_get R k) else 0).
Proof.
  induction R as [|[k' v'] R IH]; simpl.
  - destruct (in_intervalb p k); lia.
  - destruct (String.eqb k' k) eqn:E; simpl.
    + apply String.eqb_eq in E. subst k'. destruct (in_intervalb p k); lia.
    + rewrite IH. lia.
Qed.

Lemma coverage_sum_count_key R k p :
  coverage_sum (count_key R k) p =
    coverage_sum R p + (if in_intervalb p k then 1 else 0).
Proof.
  unfold count_key. rewrite coverage_sum_set.
  destruct (in_intervalb p k); [|reflexivity].
  destruct (dict_get R k); simpl; lia.
Qed.

Lemma coverage_sum_fold keys : forall R p,
  coverage_sum (fold_left count_key keys R) p =
    coverage_sum R p + raw_coverage keys p.
Proof.
  induction keys as [|k keys IH]; intros R p; simpl; [lia|].
  rewrite IH, coverage_sum_count_key. lia.
Qed.

Lemma coverage_sum_counted reads_text p :
  coverage_sum (counted_reads reads_text) p =
    raw_coverage (read_keys reads_text) p.
Proof. unfold counted_reads. rewrite coverage_sum_fold. reflexivity. Qed.

Lemma raw_coverage_bounds keys p :
  0 <= raw_coverage keys p <= Z.of_nat (length keys).
Proof.
  induction keys as [|k keys IH]; simpl; [lia|].
  destruct (in_intervalb p k); lia.
Qed.

Lemma annotated_counted reads_text ps :
  annotated (counted_reads reads_text) ps =
    map (fun p => (p, raw_coverage (read_keys reads_text) p)) ps.
Proof.
  unfold annotated. apply map_ext. intros p.
  rewrite coverage_sum_counted. reflexivity.
Qed.

(** X4: collapsing equal records into counts does not change the
    result: when the run completes, the coverage of every locus is the
    number of lines of the reads file, duplicates included, whose interval
    contains its position. *)
Theorem coverage_counts_raw_records
    (loci_text reads_text : string) (ps : list Z) :
  row_positions (loci_rows loci_text) = Some ps ->
  first_error (read_keys reads_text) = None ->
  exists text,
    main loci_text reads_text initial_store =
      Done tt
        (Store (flat (map (fun p => (p, raw_coverage (read_keys reads_text) p)) ps))
           (counted_reads reads_text) (Some text)).
Proof.
  intros Hrows Herr.
  pose proof (main_run loci_text reads_text) as Hrun. cbv zeta in Hrun.
  rewrite Hrows, counted_reads_order in Hrun.
  rewrite first_error_distinct, Herr in Hrun by reflexivity.
  destruct ps as [|p ps]; eexists.
  - exact Hrun.
  - rewrite annotated_counted in Hrun. exact Hrun.
Qed.

Lemma coverage_counts_raw_records_witness :
  exists text,
    main ("position" +:+ nl +:+ "150" +:+ nl)
         ("start,length" +:+ nl +:+ "100,60" +:+ nl +:+ "100,60" +:+ nl
            +:+ "140,20" +:+ nl +:+ "10,5" +:+ nl) initial_store =
      Done tt (Store [150; 3] [("100,60", 2); ("140,20", 1); ("10,5", 1)]
                 (Some text)).
Proof.
  refine (coverage_counts_raw_records
            ("position" +:+ nl +:+ "150" +:+ nl)
            ("start,length" +:+ nl +:+ "100,60" +:+ nl +:+ "100,60" +:+ nl
               +:+ "140,20" +:+ nl +:+ "10,5" +:+ nl) [150] _ _); reflexivity.
Defined.

(** X5: a coverage in the result of a completed run is never negative
    and never more than the number of lines of the reads file after the
    header. *)
Theorem coverage_within_record_count
    (loci_text reads_text : string) (st : store) (i : nat) (c : Z) :
  main loci_text reads_text initial_store = Done tt st ->
  loci st !! (2 * i + 1)%nat = Some c ->
  0 <= c <= Z.of_nat (length (data_rows reads_text)).
Proof.
  intros Hmain Hc.
  assert (Hlen : length (read_keys reads_text) = length (data_rows reads_text)).
  { unfold read_keys. rewrite length_map. reflexivity. }
  pose proof (main_run loci_text reads_text) as Hrun. cbv zeta in Hrun.
  destruct (row_positions (loci_rows loci_text)) as [[|p ps]|].
  - rewrite Hrun in Hmain. injection Hmain as <-. simpl in Hc.
    rewrite lookup_nil in Hc. discriminate Hc.
  - destruct (first_error (dict_keys (counted_reads reads_text))).
    + destruct Hrun as [L' Hrun]. rewrite Hrun in Hmain. discriminate Hmain.
    + rewrite Hrun in Hmain. injection Hmain as <-.
      change (flat (annotated (counted_reads reads_text) (p :: ps))
                !! (2 * i + 1)%nat = Some c) in Hc.
      rewrite flat_lookup_coverage in Hc. unfold annotated in Hc.
      rewrite list_lookup_fmap in Hc.
      destruct ((p :: ps) !! i) as [q|]; [|discriminate Hc].
      simpl in Hc. injection Hc as <-. rewrite coverage_sum_counted, <- Hlen.
      apply raw_coverage_bounds.
  - destruct Hrun as [L' Hrun]. rewrite Hrun in Hmain. discriminate Hmain.
Qed.

Lemma coverage_within_record_count_witness :
  0 <= 3 <=
    Z.of_nat (length (data_rows ("start,length" +:+ nl +:+ "100,60" +:+ nl
                                   +:+ "100,60" +:+ nl +:+ "140,20" +:+ nl))).
Proof.
  refine (coverage_within_record_count
            ("position" +:+ nl +:+ "100" +:+ nl +:+ "150" +:+ nl)
            ("start,length" +:+ nl +:+ "100,60" +:+ nl +:+ "100,60" +:+ nl
               +:+ "140,20" +:+ nl)
            (Store [100; 2; 150; 3] [("100,60", 2); ("140,20", 1)]
               (Some ("position, coverage" +:+ nl +:+ "100, 2" +:+ nl
                        +:+ "150, 3" +:+ nl)))
            1 3 _ _); reflexivity.
Defined.

(** ** Running [process] again *)

(** X6: [process] adds to the coverages it finds, so it is not
    idempotent: a second run over the same list doubles the coverage of
    every locus. *)
Theorem process_twice_doubles
    (positions : list Z) (R : list (string * Z)) (O : option string) :
  NoDup (dict_keys R) ->
  first_error (dict_keys R) = None ->
  (process ;; process) (Store (fresh positions) R O) =
    Done tt (Store (flat (map (fun p => (p, 2 * coverage_sum R p)) positions))
               R O).
Proof.
  intros Hnd Herr. unfold fresh.
  rewrite (bind_done _ _ _ _ _ (process_flat_sum _ R O Hnd Herr)).
  rewrite process_flat_sum by assumption. do 3 f_equal.
  rewrite !map_map. apply map_ext. intros p. unfold add_coverage. simpl.
  f_equal. lia.
Qed.

Lemma process_twice_doubles_witness :
  (process ;; process)
    (Store (fresh [100; 150]) [("100,60", 2); ("140,20", 1)] None) =
    Done tt (Store [100; 4; 150; 6] [("100,60", 2); ("140,20", 1)] None).
Proof.
  refine (process_twice_doubles [100; 150] [("100,60", 2); ("140,20", 1)] None _ _).
  - apply (bool_decide_unpack _). vm_compute. exact I.
  - reflexivity.
Defined.

(** ** Lists of odd length *)

Lemma for_each_key_no_slot keys : forall i p L R O,
  L !! (i + 1)%nat = None ->
  first_error keys = None ->
  (forall k, k ∈ keys -> is_Some (dict_get R k)) ->
  for_each_key keys i p (Store L R O) =
    if existsb (in_intervalb p) keys then Raised IndexError (Store L R O)
    else Done tt (Store L R O).
Proof.
  induction keys as [|k keys IH]; intros i p L R O Hslot Herr Hin; [reflexivity|].
  simpl in Herr. destruct (key_fields k) as [e|[s l]] eqn:Hk; [discriminate|].
  pose proof (visit_key_fields i p k s l (Store L R O) Hk) as Hv.
  simpl in Hv. rewrite Hslot in Hv.
  rewrite (covers_in_intervalb p k s l Hk) in Hv.
  simpl. destruct (in_intervalb p k).
  - apply bind_raised, Hv.
  - rewrite (bind_done _ _ _ _ _ Hv). simpl. apply IH; [exact Hslot|exact Herr|].
    intros k' Hk'. apply Hin, list_elem_of_further, Hk'.
Qed.

Lemma process_while_pairs todo : forall done tail fuel n i R O,
  n = length (flat (done ++ todo) ++ tail) ->
  i = length (flat done) ->
  first_error (dict_keys R) = None ->
  process_while (length todo + fuel) n i (Store (flat (done ++ todo) ++ tail) R O) =
    process_while fuel n (i + 2 * length todo)
      (Store (flat (done ++ map (annotate R) todo) ++ tail) R O).
Proof.
  induction todo as [|[p c] todo IH]; intros done tail fuel n i R O Hn Hi Herr.
  - simpl. rewrite Nat.add_0_r. reflexivity.
  - assert (Hlt : (i <? n)%nat = true).
    { apply Nat.ltb_lt. subst. rewrite length_app, !length_flat, length_app.
      simpl. lia. }
    simpl length. simpl Nat.add. simpl process_while. rewrite Hlt.
    assert (Hp : (flat (done ++ (p, c) :: todo) ++ tail) !! i = Some p).
    { rewrite flat_app, <- app_assoc, Hi. rewrite lookup_app_r by lia.
      rewrite Nat.sub_diag. reflexivity. }
    assert (Hc : (flat (done ++ (p, c) :: todo) ++ tail) !! (i + 1)%nat = Some c).
    { rewrite flat_app, <- app_assoc, Hi. rewrite lookup_app_r by lia.
      replace (length (flat done) + 1 - length (flat done))%nat with 1%nat by lia.
      reflexivity. }
    unfold bind at 1. unfold loci_get at 1. simpl loci. rewrite Hp.
    unfold bind at 1. unfold reads_keys at 1. simpl reads.
    pose proof (for_each_key_spec (dict_keys R) i p c _ R O Hc
                  (fun k Hk => dict_get_keys R k Hk)) as Hfor.
    rewrite Herr in Hfor. rewrite (bind_done _ _ _ _ _ Hfor).
    replace (<[(i + 1)%nat := c + coverage_keys R (dict_keys R) p]>
               (flat (done ++ (p, c) :: todo) ++ tail))
      with (flat ((done ++ [annotate R (p, c)]) ++ todo) ++ tail).
    + rewrite (IH (done ++ [annotate R (p, c)]) tail fuel n (i + 2)%nat R O);
        try assumption.
      * simpl map. rewrite <- app_assoc. simpl app. f_equal. lia.
      * subst n. rewrite !length_app, !length_flat, !length_app. simpl. lia.
      * subst i. rewrite !length_flat, !length_app. simpl. lia.
    + rewrite !flat_app. simpl. rewrite <- !app_assoc. simpl.
      rewrite insert_app_r_alt by lia.
      replace (i + 1 - length (flat done))%nat with 1%nat by lia.
      reflexivity.
Qed.

(** X7: on a list of odd length the last element is taken as a
    position with no coverage after it: [process] annotates the pairs in
    front of it, then raises [IndexError] if a stored interval contains
    that position, and ends normally if none does. *)
Theorem process_odd_list
    (ps : list (Z * Z)) (p : Z) (R : list (string * Z)) (O : option string) :
  NoDup (dict_keys R) ->
  first_error (dict_keys R) = None ->
  process (Store (flat ps ++ [p]) R O) =
    if existsb (in_intervalb p) (dict_keys R)
    then Raised IndexError (Store (flat (map (add_coverage R) ps) ++ [p]) R O)
    else Done tt (Store (flat (map (add_coverage R) ps) ++ [p]) R O).
Proof.
  intros Hnd Herr. unfold process, bind at 1, loci_len at 1. simpl loci.
  assert (Hlen : length (flat ps ++ [p]) = (length ps + S (length ps))%nat).
  { rewrite length_app, length_flat. simpl. lia. }
  rewrite Hlen at 1.
  rewrite (process_while_pairs ps [] [p] (S (length ps)) _ 0%nat R O);
    [|reflexivity|reflexivity|exact Herr].
  simpl app.
  replace (map (annotate R) ps) with (map (add_coverage R) ps).
  2:{ apply map_ext. intros [q c]. unfold annotate, add_coverage. simpl.
      rewrite coverage_keys_nodup by exact Hnd. reflexivity. }
  set (L := flat (map (add_coverage R) ps) ++ [p]).
  assert (HL : length L = S (2 * length ps)).
  { unfold L. rewrite length_app, length_flat, length_map. simpl. lia. }
  remember (0 + 2 * length ps)%nat as i eqn:Hi.
  remember (length (flat ps ++ [p])) as n eqn:Hn.
  assert (Hlt : (i <? n)%nat = true) by (apply Nat.ltb_lt; lia).
  assert (Hge : (i + 2 <? n)%nat = false) by (apply Nat.ltb_ge; lia).
  simpl process_while. rewrite Hlt.
  assert (Hp : L !! i = Some p).
  { unfold L. rewrite lookup_app_r by (rewrite length_flat, length_map; lia).
    rewrite length_flat, length_map.
    replace (i - 2 * length ps)%nat with 0%nat by lia. reflexivity. }
  assert (Hslot : L !! (i + 1)%nat = None) by (apply lookup_ge_None; lia).
  unfold bind at 1. unfold loci_get at 1. simpl loci. rewrite Hp.
  unfold bind at 1. unfold reads_keys at 1. simpl reads.
  pose proof (for_each_key_no_slot (dict_keys R) i p L R O Hslot Herr
                (fun k Hk => dict_get_keys R k Hk)) as Hfor.
  destruct (existsb (in_intervalb p) (dict_keys R)).
  - apply bind_raised, Hfor.
  - rewrite (bind_done _ _ _ _ _ Hfor).
    destruct (length ps); simpl; rewrite Hge; reflexivity.
Qed.

Lemma process_odd_list_witness :
  process (Store [100; 0; 150] [("100,60", 2)] None) =
    Raised IndexError (Store [100; 2; 150] [("100,60", 2)] None) /\
  process (Store [100; 0; 200] [("100,60", 2)] None) =
    Done tt (Store [100; 2; 200] [("100,60", 2)] None).
Proof.
  split.
  - refine (process_odd_list [(100, 0)] 150 [("100,60", 2)] None _ _).
    + apply (bool_decide_unpack _). vm_compute. exact I.
    + reflexivity.
  - refine (process_odd_list [(100, 0)] 200 [("100,60", 2)] None _ _).
    + apply (bool_decide_unpack _). vm_compute. exact I.
    + reflexivity.
Defined.

Lemma output_poscov_while_pairs todo : forall done tail fuel n i R text,
  n = length (flat (done ++ todo) ++ tail) ->
  i = length (flat done) ->
  output_poscov_while (length todo + fuel) n i
      (Store (flat (done ++ todo) ++ tail) R (Some text)) =
    output_poscov_while fuel n (i + 2 * length todo)
      (Store (flat (done ++ todo) ++ tail) R (Some (text +:+ rows_text todo))).
Proof.
  induction todo as [|[p c] todo IH]; intros done tail fuel n i R text Hn Hi.
  - simpl. rewrite Nat.add_0_r, app_nil_right. reflexivity.
  - assert (Hlt : (i <? n)%nat = true).
    { apply Nat.ltb_lt. subst. rewrite length_app, !length_flat, length_app.
      simpl. lia. }
    simpl length. simpl Nat.add. simpl output_poscov_while. rewrite Hlt.
    assert (Hp : (flat (done ++ (p, c) :: todo) ++ tail) !! i = Some p).
    { rewrite flat_app, <- app_assoc, Hi. rewrite lookup_app_r by lia.
      rewrite Nat.sub_diag. reflexivity. }
    assert (Hc : (flat (done ++ (p, c) :: todo) ++ tail) !! (i + 1)%nat = Some c).
    { rewrite flat_app, <- app_assoc, Hi. rewrite lookup_app_r by lia.
      replace (length (flat done) + 1 - length (flat done))%nat with 1%nat by lia.
      reflexivity. }
    unfold bind at 1, loci_get at 1. simpl loci. rewrite Hp.
    unfold bind at 1, loci_get at 1. simpl loci. rewrite Hc.
    unfold bind at 1, fd_write at 1. simpl output_file. unfold set_output.
    simpl loci. simpl reads.
    replace (done ++ (p, c) :: todo) with ((done ++ [(p, c)]) ++ todo)
      by (rewrite <- app_assoc; reflexivity).
    rewrite (IH (done ++ [(p, c)]) tail fuel n (i + 2)%nat).
    + replace (i + S (length todo + S (length todo + 0)))%nat
        with (i + 2 + 2 * length todo)%nat by lia.
      simpl rows_text. rewrite app_assoc_string. reflexivity.
    + subst n. rewrite <- app_assoc. reflexivity.
    + subst i. rewrite !length_flat, !length_app. simpl. lia.
Qed.

(** X8: [output_poscov] on a list of odd length writes the header and a
    row for every complete pair, then raises [IndexError] at the last
    element: the file is left with those rows. *)
Theorem output_poscov_odd_list
    (ps : list (Z * Z)) (p : Z) (R : list (string * Z)) (O : option string) :
  output_poscov (Store (flat ps ++ [p]) R O) =
    Raised IndexError
      (Store (flat ps ++ [p]) R (Some (header +:+ rows_text ps))).
Proof.
  unfold output_poscov, bind at 1, open_wt. simpl.
  unfold bind at 1, fd_write at 1. simpl.
  unfold bind at 1, loci_len at 1. simpl loci.
  assert (Hlen : length (flat ps ++ [p]) = (length ps + S (length ps))%nat).
  { rewrite length_app, length_flat. simpl. lia. }
  rewrite Hlen at 1.
  pose proof (output_poscov_while_pairs ps [] [p] (S (length ps)) _ 0%nat R
                header eq_refl eq_refl) as Hrows.
  simpl app in Hrows. etransitivity; [exact Hrows|].
  remember (0 + 2 * length ps)%nat as i eqn:Hi.
  remember (length (flat ps ++ [p])) as n eqn:Hn.
  assert (Hlt : (i <? n)%nat = true) by (apply Nat.ltb_lt; lia).
  simpl output_poscov_while. rewrite Hlt.
  assert (Hp : (flat ps ++ [p]) !! i = Some p).
  { rewrite lookup_app_r by (rewrite length_flat; lia). rewrite length_flat.
    replace (i - 2 * length ps)%nat with 0%nat by lia. reflexivity. }
  assert (Hslot : (flat ps ++ [p]) !! (i + 1)%nat = None)
    by (apply lookup_ge_None; lia).
  unfold bind at 1, loci_get at 1. simpl loci. rewrite Hp.
  unfold bind at 1, loci_get at 1. simpl loci. rewrite Hslot. reflexivity.
Qed.

(** ** No reads *)

Lemma process_while_no_reads fuel : forall n i L O,
  n = length L -> (n <= i + fuel)%nat ->
  process_while fuel n i (Store L [] O) = Done tt (Store L [] O).
Proof.
  induction fuel as [|fuel IH]; intros n i L O Hn Hfuel; simpl.
  - destruct (i <? n)%nat eqn:E; [apply Nat.ltb_lt in E; lia|reflexivity].
  - destruct (i <? n)%nat eqn:E; [|reflexivity].
    apply Nat.ltb_lt in E. subst n.
    destruct (lookup_lt_is_Some_2 L i E) as [x Hx].
    unfold bind at 1, loci_get at 1. simpl loci. rewrite Hx.
    unfold bind at 1, reads_keys at 1. simpl.
    unfold bind at 1, ret at 1. apply IH; [reflexivity|lia].
Qed.

(** X9: with no read, [process] leaves any list as it is; a reads file
    that is empty or has only its header gives a table in which every
    locus has coverage 0. *)
Theorem no_reads_no_coverage :
  (forall L O, process (Store L [] O) = Done tt (Store L [] O)) /\
  (forall loci_text reads_text ps,
     data_rows reads_text = [] ->
     row_positions (loci_rows loci_text) = Some ps ->
     main loci_text reads_text initial_store =
       Done tt (Store (fresh ps) []
                  (Some (header +:+ rows_text (map (fun p => (p, 0)) ps))))).
Proof.
  split.
  - intros L O. unfold process, bind, loci_len. simpl.
    apply process_while_no_reads; [reflexivity|lia].
  - intros loci_text reads_text ps Hnone Hrows.
    pose proof (main_run loci_text reads_text) as Hrun. cbv zeta in Hrun.
    assert (HR : counted_reads reads_text = []).
    { unfold counted_reads, read_keys. fold (data_rows reads_text).
      rewrite Hnone. reflexivity. }
    rewrite Hrows, HR in Hrun. destruct ps as [|p ps]; exact Hrun.
Qed.

Lemma no_reads_no_coverage_witness :
  main ("position" +:+ nl +:+ "100" +:+ nl +:+ "-3" +:+ nl) "start,length"
       initial_store =
    Done tt (Store [100; 0; -3; 0] []
               (Some ("position, coverage" +:+ nl +:+ "100, 0" +:+ nl
                        +:+ "-3, 0" +:+ nl))).
Proof.
  refine (proj2 no_reads_no_coverage
            ("position" +:+ nl +:+ "100" +:+ nl +:+ "-3" +:+ nl) "start,length"
            [100; -3] _ _); reflexivity.
Defined.

(** ** The exceptions of [process] *)

Lemma visit_key_outcome i p k st :
  is_Some (dict_get (reads st) k) ->
  match visit_key i p k st with
  | Done _ st' => reads st' = reads st
  | Raised e _ => e = ValueError \/ e = IndexError
  | OutOfFuel => False
  end.
Proof.
  intros [m Hm]. destruct (key_fields k) as [e|[s l]] eqn:Hk.
  - rewrite (visit_key_error _ _ _ _ _ Hk). eapply key_fields_error, Hk.
  - rewrite (visit_key_fields _ _ _ _ _ _ Hk), Hm.
    destruct (covers p s (s + l)); [|reflexivity].
    destruct (loci st !! (i + 1)%nat); [reflexivity|auto].
Qed.

Lemma for_each_key_outcome keys i p : forall st,
  (forall k, k ∈ keys -> is_Some (dict_get (reads st) k)) ->
  match for_each_key keys i p st with
  | Done _ st' => reads st' = reads st
  | Raised e _ => e = ValueError \/ e = IndexError
  | OutOfFuel => False
  end.
Proof.
  induction keys as [|k keys IH]; intros st Hin; simpl; [reflexivity|].
  pose proof (visit_key_outcome i p k st (Hin k (list_elem_of_here _ _))) as Hv.
  unfold bind. destruct (visit_key i p k st) as [[] st1|e st1|]; auto.
  assert (Hin1 : forall k', k' ∈ keys -> is_Some (dict_get (reads st1) k')).
  { intros k' Hk'. rewrite Hv. apply Hin, list_elem_of_further, Hk'. }
  specialize (IH st1 Hin1).
  destruct (for_each_key keys i p st1) as [[] st2|e st2|]; auto. congruence.
Qed.

Lemma process_while_raises fuel : forall n i st e st',
  process_while fuel n i st = Raised e st' -> e = ValueError \/ e = IndexError.
Proof.
  induction fuel as [|fuel IH]; intros n i st e st'; simpl.
  - destruct (i <? n)%nat; discriminate.
  - destruct (i <? n)%nat; [|discriminate].
    unfold bind at 1, loci_get at 1.
    destruct (loci st !! i) as [the_locus|]; [|intros [= <- _]; auto].
    unfold bind at 1, reads_keys at 1.
    pose proof (for_each_key_outcome (dict_keys (reads st)) i the_locus st
                  (fun k Hk => dict_get_keys _ k Hk)) as Hfor.
    unfold bind at 1.
    destruct (for_each_key (dict_keys (reads st)) i the_locus st)
      as [[] st1|e1 st1|]; [apply IH|intros [= <- _]; exact Hfor|discriminate].
Qed.

(** X10: the only exceptions [process] raises are [ValueError] and
    [IndexError]: the keys it looks up are those of the dict it iterates
    over, so [reads[each_key]] never raises [KeyError]. *)
Theorem process_raises_no_key_error (st st' : store) (e : exn) :
  process st = Raised e st' -> e = ValueError \/ e = IndexError.
Proof.
  unfold process, bind at 1, loci_len at 1. apply process_while_raises.
Qed.

Lemma process_raises_no_key_error_witness :
  ValueError = ValueError \/ ValueError = IndexError.
Proof.
  refine (process_raises_no_key_error
            (Store [100; 0] [("100,60", 2); ("x,5", 1)] None)
            (Store [100; 2] [("100,60", 2); ("x,5", 1)] None) ValueError _).
  reflexivity.
Defined.

(** ** Fields that are not read *)

Lemma comma_app t : "," +:+ t = String Py.comma t.
Proof. reflexivity. Qed.

Lemma key_fields_extra field0 field1 extra :
  all_chars not_comma field0 = true ->
  all_chars not_comma field1 = true ->
  key_fields (field0 +:+ "," +:+ field1 +:+ "," +:+ extra) =
    key_fields (field0 +:+ "," +:+ field1).
Proof.
  intros H0 H1. unfold key_fields. rewrite !comma_app.
  rewrite !(split_comma_first field0) by exact H0.
  rewrite (split_comma_first field1) by exact H1.
  rewrite (split_comma_none field1) by exact H1. reflexivity.
Qed.

(** X11: lines 212-215 read the first two fields of a key and nothing
    else: a key with more fields is accepted when its first two are, and
    [process] gives every locus the coverage it would get from the key
    made of those two fields. *)
Theorem extra_fields_of_a_key_are_ignored
    (field0 field1 extra : string) (m : Z) (ps : list (Z * Z))
    (O : option string) :
  all_chars not_comma field0 = true ->
  all_chars not_comma field1 = true ->
  first_error [field0 +:+ "," +:+ field1] = None ->
  process (Store (flat ps) [(field0 +:+ "," +:+ field1 +:+ "," +:+ extra, m)] O) =
    Done tt
      (Store (flat (map (add_coverage [(field0 +:+ "," +:+ field1, m)]) ps))
         [(field0 +:+ "," +:+ field1 +:+ "," +:+ extra, m)] O).
Proof.
  intros H0 H1 Herr.
  pose proof (key_fields_extra field0 field1 extra H0 H1) as Hk.
  rewrite process_flat_sum.
  - do 3 f_equal. apply map_ext. intros [p c]. unfold add_coverage. simpl.
    unfold in_intervalb. rewrite Hk. reflexivity.
  - apply NoDup_singleton.
  - simpl in *. rewrite Hk. exact Herr.
Qed.

Lemma extra_fields_of_a_key_are_ignored_witness :
  process (Store [120; 0] [("100,60,sample-7,+", 4)] None) =
    Done tt (Store [120; 4] [("100,60,sample-7,+", 4)] None).
Proof.
  refine (extra_fields_of_a_key_are_ignored "100" "60" "sample-7,+" 4
            [(120, 0)] None _ _ _); reflexivity.
Defined.

Lemma strip_last P s c :
  P c = true ->
  Py.rstrip_by P (Py.lstrip_by P (s +:+ String c "")) =
    Py.rstrip_by P (Py.lstrip_by P s).
Proof.
  intros Hc. induction s as [|a s IH].
  - simpl. rewrite Hc. reflexivity.
  - rewrite app_cons. simpl Py.lstrip_by. destruct (P a); [exact IH|].
    rewrite <- app_cons. apply rstrip_by_last, Hc.
Qed.

Lemma int_newline s : Py.int (s +:+ nl) = Py.int s.
Proof. unfold Py.int, nl. rewrite strip_last by reflexivity. reflexivity. Qed.

Lemma row_position_first_field field rest :
  all_chars not_comma field = true ->
  row_position (field +:+ "," +:+ rest) = Py.int field /\
  row_position (field +:+ nl) = Py.int field /\
  row_position field = Py.int field.
Proof.
  intros H. unfold row_position. split; [|split].
  - rewrite comma_app, split_comma_first by exact H. reflexivity.
  - rewrite split_comma_none.
    + apply int_newline.
    + rewrite all_chars_app, H. reflexivity.
  - rewrite split_comma_none by exact H. reflexivity.
Qed.

(** X12: line 88 reads the first field of a row and nothing else:
    [init_poscov] loads the same locus from a row whatever follows its
    first comma, and the newline that ends a row of one field is white
    space for [int]. *)
Theorem extra_columns_of_a_row_are_ignored
    (field rest : string) (rows : list string)
    (L : list Z) (R : list (string * Z)) (O : option string) :
  all_chars not_comma field = true ->
  init_poscov_for ((field +:+ "," +:+ rest) :: rows) (Store L R O) =
    init_poscov_for (field :: rows) (Store L R O) /\
  init_poscov_for ((field +:+ nl) :: rows) (Store L R O) =
    init_poscov_for (field :: rows) (Store L R O).
Proof.
  intros H. destruct (row_position_first_field field rest H) as (H1 & H2 & H3).
  rewrite !init_poscov_for_cons, H1, H2, H3. split; reflexivity.
Qed.

Lemma extra_columns_of_a_row_are_ignored_witness :
  init_poscov_for [("  -12 ,chr1,anything" +:+ nl)] (Store [] [] None) =
    Done tt (Store [-12; 0] [] None).
Proof.
  refine (eq_trans (proj1 (extra_columns_of_a_row_are_ignored
            "  -12 " ("chr1,anything" +:+ nl) [] [] [] None _)) _); reflexivity.
Defined.

(** X23: [init_poscov] appends to the list it is given, and stops at
    the first row whose position [int] rejects: the loci of the rows
    before it are already in the list when [ValueError] is raised. *)
Theorem init_poscov_loads_up_to_bad_row
    (good : list string) (bad : string) (rest : list string) (ps : list Z)
    (L : list Z) (R : list (string * Z)) (O : option string) :
  row_positions good = Some ps ->
  row_position bad = None ->
  init_poscov_for good (Store L R O) = Done tt (Store (L ++ fresh ps) R O) /\
  init_poscov_for (good ++ bad :: rest) (Store L R O) =
    Raised ValueError (Store (L ++ fresh ps) R O).
Proof.
  intros Hgood Hbad. split.
  - pose proof (init_poscov_for_spec good L R O) as H. rewrite Hgood in H. exact H.
  - revert ps L Hgood. induction good as [|row good IH]; intros ps L Hgood.
    + simpl in Hgood. injection Hgood as <-. simpl app.
      rewrite init_poscov_for_cons, Hbad, app_nil_r. reflexivity.
    + simpl in Hgood. destruct (row_position row) as [p|] eqn:Hrow; [|discriminate].
      destruct (row_positions good) as [ps'|]; [|discriminate].
      injection Hgood as <-. simpl app.
      rewrite init_poscov_for_cons, Hrow, (IH ps' _ eq_refl).
      rewrite fresh_cons, <- !app_assoc. reflexivity.
Qed.

Lemma init_poscov_loads_up_to_bad_row_witness :
  init_poscov_for ["100" +:+ nl; "150" +:+ nl; nl; "200" +:+ nl] (Store [7; 1] [] None) =
    Raised ValueError (Store [7; 1; 100; 0; 150; 0] [] None).
Proof.
  refine (proj2 (init_poscov_loads_up_to_bad_row
            ["100" +:+ nl; "150" +:+ nl] nl ["200" +:+ nl] [100; 150]
            [7; 1] [] None _ _)); reflexivity.
Defined.

(** ** The first line *)

Lemma universal_newlines_line h rest :
  all_chars not_return h = true ->
  Py.universal_newlines (h +:+ nl +:+ rest) =
    h +:+ nl +:+ Py.universal_newlines rest.
Proof.
  induction h as [|c h IH]; [reflexivity|]. simpl.
  rewrite andb_true_iff. unfold not_return at 1. rewrite negb_true_iff.
  intros [Hc Hh]. rewrite Hc, (IH Hh). reflexivity.
Qed.

Lemma readlines_first h rest :
  all_chars not_return h = true ->
  all_chars not_newline h = true ->
  Py.readlines (h +:+ nl +:+ rest) = (h +:+ nl) :: Py.readlines rest.
Proof.
  intros Hr Hn. unfold Py.readlines.
  rewrite universal_newlines_line by exact Hr.
  apply split_lines_first, Hn.
Qed.

(** X13: the first line of either file is skipped unread, whatever it
    holds: a file without header loses its first record; an empty file
    and a file with one line give no record at all. *)
Theorem first_line_is_skipped (first body : string) (st : store) :
  all_chars not_return first = true ->
  all_chars not_newline first = true ->
  init_poscov (first +:+ nl +:+ body) st = init_poscov_for (Py.readlines body) st /\
  init_reads (first +:+ nl +:+ body) st = init_reads_for (Py.readlines body) st /\
  init_poscov "" st = Done tt st /\
  init_reads "" st = Done tt st /\
  init_poscov (first +:+ nl) st = Done tt st /\
  init_reads (first +:+ nl) st = Done tt st /\
  init_poscov first st = Done tt st /\
  init_reads first st = Done tt st.
Proof.
  intros Hr Hn.
  assert (Hone : Py.islice_from_1 (Py.readlines first) = []).
  { unfold Py.readlines. rewrite universal_newlines_none by exact Hr.
    clear Hr. destruct first as [|c t]; [reflexivity|].
    assert (H : forall s, all_chars not_newline s = true -> s <> "" ->
                          Py.split_lines s = [s]).
    { clear. induction s as [|a s IH]; [congruence|]. simpl.
      rewrite andb_true_iff. unfold not_newline at 1. rewrite negb_true_iff.
      intros [-> Hs] _. destruct s as [|b s]; [reflexivity|].
      rewrite IH by (auto; discriminate). reflexivity. }
    rewrite H by (auto; discriminate). reflexivity. }
  assert (Hline : Py.islice_from_1 (Py.readlines (first +:+ nl)) = []).
  { rewrite <- (app_nil_right (first +:+ nl)), app_assoc_string.
    rewrite readlines_first by assumption. reflexivity. }
  unfold init_poscov, init_reads.
  rewrite readlines_first, Hone, Hline by assumption.
  repeat split; reflexivity.
Qed.

Lemma first_line_is_skipped_witness :
  init_poscov ("100" +:+ nl +:+ "150" +:+ nl +:+ "200" +:+ nl) initial_store =
    Done tt (Store [150; 0; 200; 0] [] None).
Proof.
  refine (eq_trans
            (proj1 (first_line_is_skipped "100" ("150" +:+ nl +:+ "200" +:+ nl)
                      initial_store _ _)) _); reflexivity.
Defined.

(** ** The table as a loci file *)

Lemma annotated_positions R ps : map fst (annotated R ps) = ps.
Proof.
  unfold annotated. rewrite map_map. simpl. apply map_id.
Qed.

Lemma loci_rows_table ps :
  row_positions (loci_rows (header +:+ rows_text ps)) = Some (map fst ps).
Proof.
  unfold loci_rows. fold (data_rows (header +:+ rows_text ps)).
  rewrite data_rows_table. apply row_positions_output.
Qed.

Lemma main_on_own_table loci_text reads_text text st :
  main loci_text reads_text initial_store = Done tt st ->
  output_file st = Some text ->
  main text reads_text initial_store = Done tt st.
Proof.
  intros Hmain Hout.
  pose proof (main_run loci_text reads_text) as Hrun. cbv zeta in Hrun.
  pose proof (main_run text reads_text) as Hagain. cbv zeta in Hagain.
  destruct (row_positions (loci_rows loci_text)) as [[|p ps]|].
  - rewrite Hrun in Hmain.
    assert (Hst : st = Store [] (counted_reads reads_text)
                         (Some (header +:+ rows_text []))) by congruence.
    subst st. assert (Ht : text = header +:+ rows_text []) 
      by (cbv [output_file] in Hout; congruence).
    subst text. rewrite loci_rows_table in Hagain. exact Hagain.
  - destruct (first_error (dict_keys (counted_reads reads_text))) as [e|] eqn:Herr.
    + destruct Hrun as [L' Hrun]. rewrite Hrun in Hmain. discriminate Hmain.
    + rewrite Hrun in Hmain.
      set (R := counted_reads reads_text) in *.
      assert (Hst : st = Store (flat (annotated R (p :: ps))) R
                           (Some (header +:+ rows_text (annotated R (p :: ps)))))
        by congruence.
      subst st.
      assert (Ht : text = header +:+ rows_text (annotated R (p :: ps)))
        by (cbv [output_file] in Hout; congruence).
      subst text.
      rewrite loci_rows_table, annotated_positions in Hagain. exact Hagain.
  - destruct Hrun as [L' Hrun]. rewrite Hrun in Hmain. discriminate Hmain.
Qed.

(** X14: the table a run writes can be given back as loci file: with
    the same reads file, the run ends in the same store and writes the
    same table. *)
Theorem table_as_loci_file_gives_same_table
    (loci_text reads_text text : string) (st : store) :
  main loci_text reads_text initial_store = Done tt st ->
  output_file st = Some text ->
  main text reads_text initial_store = Done tt st.
Proof. apply main_on_own_table. Qed.

Lemma table_as_loci_file_gives_same_table_witness :
  main ("position, coverage" +:+ nl +:+ "100, 2" +:+ nl +:+ "150, 3" +:+ nl)
       ("start,length" +:+ nl +:+ "100,60" +:+ nl +:+ "100,60" +:+ nl
          +:+ "140,20" +:+ nl) initial_store =
    Done tt (Store [100; 2; 150; 3] [("100,60", 2); ("140,20", 1)]
               (Some ("position, coverage" +:+ nl +:+ "100, 2" +:+ nl
                        +:+ "150, 3" +:+ nl))).
Proof.
  refine (table_as_loci_file_gives_same_table
            ("position" +:+ nl +:+ "100" +:+ nl +:+ "150" +:+ nl)
            ("start,length" +:+ nl +:+ "100,60" +:+ nl +:+ "100,60" +:+ nl
               +:+ "140,20" +:+ nl) _ _ _ _); reflexivity.
Defined.

(** ** Different loci, different tables *)

Lemma output_row_inj a b : output_row a = output_row b -> a = b.
Proof.
  intros H. pose proof (f_equal Py.split_comma H) as Hs.
  rewrite !split_comma_output_row in Hs.
  pose proof (f_equal (map Py.int) Hs) as Hi. cbn [map] in Hi.
  rewrite !int_str, !int_space_str_nl in Hi.
  destruct a, b. simpl in Hi. congruence.
Qed.

Lemma map_output_row_inj ps : forall qs,
  map output_row ps = map output_row qs -> ps = qs.
Proof.
  induction ps as [|a ps IH]; intros [|b qs]; simpl; try discriminate;
    [reflexivity|].
  intros [= Hab Hrest]. f_equal; [apply output_row_inj, Hab|apply IH, Hrest].
Qed.

(** X15: the table determines the loci: two lists for which
    [output_poscov] writes the same text hold the same positions and
    coverages in the same order. *)
Theorem output_poscov_is_injective
    (ps qs : list (Z * Z)) (R R' : list (string * Z)) (O O' : option string)
    (st st' : store) :
  output_poscov (Store (flat ps) R O) = Done tt st ->
  output_poscov (Store (flat qs) R' O') = Done tt st' ->
  output_file st = output_file st' ->
  ps = qs.
Proof.
  rewrite !output_poscov_flat. intros H1 H2 Hout.
  assert (Htext : header +:+ rows_text ps = header +:+ rows_text qs).
  { assert (Hst : st = Store (flat ps) R (Some (header +:+ rows_text ps)))
      by congruence.
    assert (Hst' : st' = Store (flat qs) R' (Some (header +:+ rows_text qs)))
      by congruence.
    subst st st'. cbv [output_file] in Hout. congruence. }
  apply map_output_row_inj.
  rewrite <- !data_rows_table, Htext. reflexivity.
Qed.

Lemma output_poscov_is_injective_witness : [(100, 2); (-7, 0)] = [(100, 2); (-7, 0)].
Proof.
  refine (output_poscov_is_injective
            [(100, 2); (-7, 0)] [(100, 2); (-7, 0)] [] [("100,60", 2)] None (Some "old")
            _ _ _ _ _); reflexivity.
Defined.

(** ** Line ends *)

Lemma universal_newlines_crlf s :
  all_chars not_return s = true ->
  Py.universal_newlines (crlf s) = s.
Proof.
  induction s as [|c s IH]; [reflexivity|]. simpl all_chars.
  rewrite andb_true_iff. unfold not_return at 1. rewrite negb_true_iff.
  intros [Hc Hs]. simpl crlf. destruct (Py.chr_eqb c Py.LF) eqn:E.
  - apply Ascii.eqb_eq in E. subst c.
    change (Py.universal_newlines (String Py.CR (String Py.LF (crlf s))))
      with (String Py.LF (Py.universal_newlines (crlf s))).
    rewrite (IH Hs). reflexivity.
  - simpl Py.universal_newlines. rewrite Hc, (IH Hs). reflexivity.
Qed.

(** X16: a file with Windows line ends is read as the same file with
    Unix line ends: the lines, hence the loci and the keys of the reads,
    are the same. *)
Theorem windows_line_ends_are_translated
    (loci_text reads_text : string) (st : store) :
  all_chars not_return loci_text = true ->
  all_chars not_return reads_text = true ->
  Py.readlines (crlf loci_text) = Py.readlines loci_text /\
  read_keys (crlf reads_text) = read_keys reads_text /\
  main (crlf loci_text) (crlf reads_text) st = main loci_text reads_text st.
Proof.
  intros Hl Hr.
  assert (H : forall t, all_chars not_return t = true ->
                        Py.readlines (crlf t) = Py.readlines t).
  { intros t Ht. unfold Py.readlines. rewrite universal_newlines_crlf by exact Ht.
    rewrite universal_newlines_none by exact Ht. reflexivity. }
  split; [apply H, Hl|]. split.
  - unfold read_keys. rewrite H by exact Hr. reflexivity.
  - unfold main, init_poscov, init_reads. rewrite !H by assumption. reflexivity.
Qed.

Lemma windows_line_ends_are_translated_witness :
  read_keys ("start,length" +:+ String Py.CR nl +:+ "100,60" +:+ String Py.CR nl) =
    ["100,60"].
Proof.
  refine (eq_trans (proj1 (proj2 (windows_line_ends_are_translated
            "" ("start,length" +:+ nl +:+ "100,60" +:+ nl) initial_store _ _))) _);
    reflexivity.
Defined.

(** ** The newline of the last line *)

Lemma universal_newlines_snoc n : forall body c,
  (String.length body <= n)%nat ->
  Py.chr_eqb c Py.CR = false ->
  exists u, forall t,
    Py.universal_newlines (body +:+ String c t) =
      u +:+ String c (Py.universal_newlines t).
Proof.
  induction n as [n IH] using lt_wf_ind. intros body c Hlen Hc.
  destruct body as [|a body].
  - exists "". intros t. rewrite !app_nil_left. simpl. rewrite Hc. reflexivity.
  - simpl in Hlen. destruct (Py.chr_eqb a Py.CR) eqn:Ea.
    + destruct body as [|b body].
      * destruct (Py.chr_eqb c Py.LF) eqn:Ec.
        -- exists "". intros t. rewrite app_cons, !app_nil_left.
           simpl. rewrite Ea, Ec. apply Ascii.eqb_eq in Ec. subst c. reflexivity.
        -- exists (String Py.LF ""). intros t. rewrite app_cons, app_nil_left.
           simpl. rewrite Ea, Ec, Hc. reflexivity.
      * destruct (Py.chr_eqb b Py.LF) eqn:Eb.
        -- destruct (IH (String.length body) ltac:(simpl in Hlen; lia) body c
                       (Nat.le_refl _) Hc) as [u Hu].
           exists (String Py.LF u). intros t. rewrite !app_cons.
           simpl. rewrite Ea, Eb, Hu. reflexivity.
        -- destruct (IH (String.length (String b body)) ltac:(lia)
                       (String b body) c (Nat.le_refl _) Hc) as [u Hu].
           exists (String Py.LF u). intros t. rewrite app_cons.
           change (Py.universal_newlines
                     (String a (String b body +:+ String c t)))
             with (if Py.chr_eqb a Py.CR
                   then String Py.LF
                          (if Py.chr_eqb b Py.LF
                           then Py.universal_newlines (body +:+ String c t)
                           else Py.universal_newlines
                                  (String b body +:+ String c t))
                   else String a (Py.universal_newlines
                                    (String b body +:+ String c t))).
           rewrite Ea, Eb, Hu. reflexivity.
    + destruct (IH (String.length body) ltac:(lia) body c (Nat.le_refl _) Hc)
        as [u Hu].
      exists (String a u). intros t. rewrite app_cons. simpl.
      rewrite Ea, Hu. reflexivity.
Qed.

Lemma split_lines_snoc u : forall c,
  Py.chr_eqb c Py.LF = false ->
  exists front last,
    Py.split_lines (u +:+ String c "") = front ++ [last] /\
    Py.split_lines (u +:+ String c nl) = front ++ [last +:+ nl].
Proof.
  induction u as [|a u IH]; intros c Hc.
  - exists [], (String c ""). rewrite !app_nil_left. simpl. rewrite Hc.
    split; reflexivity.
  - destruct (IH c Hc) as (front & last & H1 & H2).
    rewrite !app_cons. simpl. rewrite H1, H2.
    destruct (Py.chr_eqb a Py.LF).
    + exists (String a "" :: front), last. split; reflexivity.
    + destruct front as [|f front].
      * exists [], (String a last). split; reflexivity.
      * exists (String a f :: front), last. split; reflexivity.
Qed.

Lemma readlines_snoc body c :
  Py.chr_eqb c Py.CR = false ->
  Py.chr_eqb c Py.LF = false ->
  exists front last,
    Py.readlines (body +:+ String c "") = front ++ [last] /\
    Py.readlines (body +:+ String c nl) = front ++ [last +:+ nl].
Proof.
  intros Hr Hn. unfold Py.readlines.
  destruct (universal_newlines_snoc _ body c (Nat.le_refl _) Hr) as [u Hu].
  rewrite !Hu. apply split_lines_snoc, Hn.
Qed.

Lemma split_comma_newline row :
  exists field fields,
    Py.split_comma row = field :: fields /\
    (hd "" (Py.split_comma (row +:+ nl)) = field \/
     hd "" (Py.split_comma (row +:+ nl)) = field +:+ nl).
Proof.
  induction row as [|a row (field & fields & H1 & H2)].
  - exists "", []. split; [reflexivity|]. right. reflexivity.
  - rewrite app_cons. simpl. destruct (Py.chr_eqb a Py.comma).
    + exists "", (Py.split_comma row). split; [reflexivity|]. left. reflexivity.
    + rewrite H1. exists (String a field), fields. split; [reflexivity|].
      pose proof (split_comma_nonempty (row +:+ nl)) as Hne.
      destruct (Py.split_comma (row +:+ nl)) as [|f fs]; [congruence|].
      simpl in *. destruct H2 as [->| ->]; [left|right]; reflexivity.
Qed.

Lemma row_position_newline row : row_position (row +:+ nl) = row_position row.
Proof.
  unfold row_position.
  destruct (split_comma_newline row) as (field & fields & H1 & H2).
  rewrite H1. pose proof (split_comma_nonempty (row +:+ nl)) as Hne.
  destruct (Py.split_comma (row +:+ nl)) as [|f fs]; [congruence|].
  simpl in H2. destruct H2 as [->| ->]; [reflexivity|apply int_newline].
Qed.

Lemma init_poscov_for_snoc front : forall last L R O,
  init_poscov_for (front ++ [last +:+ nl]) (Store L R O) =
    init_poscov_for (front ++ [last]) (Store L R O).
Proof.
  induction front as [|row front IH]; intros last L R O.
  - simpl app. rewrite !init_poscov_for_cons, row_position_newline. reflexivity.
  - simpl app. rewrite !init_poscov_for_cons.
    destruct (row_position row); [apply IH|reflexivity].
Qed.

Lemma rstrip_newline_snoc front last :
  map Py.rstrip_newline (Py.islice_from_1 (front ++ [last +:+ nl])) =
    map Py.rstrip_newline (Py.islice_from_1 (front ++ [last])).
Proof.
  assert (H : forall l, map Py.rstrip_newline (l ++ [last +:+ nl]) =
                        map Py.rstrip_newline (l ++ [last])).
  { intros l. rewrite !map_app. simpl. unfold Py.rstrip_newline, nl.
    rewrite rstrip_by_last by reflexivity. reflexivity. }
  destruct front as [|f front]; [reflexivity|]. apply H.
Qed.

(** X17: the newline at the end of the last line of a file is optional:
    with or without it the loci loaded and the dict of reads built are
    the same. *)
Theorem final_newline_is_optional
    (body : string) (c : ascii) (L : list Z) (R : list (string * Z))
    (O : option string) :
  Py.chr_eqb c Py.CR = false ->
  Py.chr_eqb c Py.LF = false ->
  init_poscov (body +:+ String c nl) (Store L R O) =
    init_poscov (body +:+ String c "") (Store L R O) /\
  init_reads (body +:+ String c nl) (Store L R O) =
    init_reads (body +:+ String c "") (Store L R O).
Proof.
  intros Hr Hn. destruct (readlines_snoc body c Hr Hn) as (front & last & H1 & H2).
  split.
  - unfold init_poscov. rewrite H1, H2.
    destruct front as [|f front]; [reflexivity|]. apply init_poscov_for_snoc.
  - rewrite !init_reads_run. unfold read_keys. rewrite H1, H2.
    rewrite rstrip_newline_snoc. reflexivity.
Qed.

Lemma final_newline_is_optional_witness :
  init_reads ("start,length" +:+ nl +:+ "100,60" +:+ nl +:+ "100,60")
             (Store [] [] None) =
    Done tt (Store [] [("100,60", 2)] None).
Proof.
  refine (eq_trans (eq_sym (proj2 (final_newline_is_optional
            ("start,length" +:+ nl +:+ "100,60" +:+ nl +:+ "100,6") "0"
            [] [] None _ _))) _); reflexivity.
Defined.

(** ** Checking the arguments *)

(** Brings a concatenation of strings to a normal form. *)
Ltac normalize_text :=
  repeat first [ rewrite app_nil_right | rewrite app_nil_left
               | rewrite app_assoc_string ].

Lemma check_args_wrong_count argv path_exists :
  length argv <> 4%nat ->
  check_args argv argv path_exists = (print_text [usage_text], inr false).
Proof.
  intros Hlen. unfold check_args.
  destruct (Nat.eqb_spec (length argv) 4) as [E|_]; [contradiction|].
  reflexivity.
Qed.

Lemma check_args_four a0 a1 a2 a3 path_exists :
  check_args [a0; a1; a2; a3] [a0; a1; a2; a3] path_exists =
    ((if path_exists a1 then "" else print_text [a1; missing_text]) +:+
     (if path_exists a2 then "" else print_text [a2; missing_text]) +:+
     (if path_exists a1 && path_exists a2 then summary_text a1 a2 a3 else ""),
     inr (path_exists a1 && path_exists a2)).
Proof.
  unfold check_args, check_path, summary_text.
  simpl length. simpl Nat.eqb. simpl negb. unfold item. simpl lookup.
  unfold and_then, say, print.
  destruct (path_exists a1), (path_exists a2); simpl negb; cbv iota beta;
    simpl andb; cbv iota; f_equal; normalize_text; reflexivity.
Qed.

(** X18: [check_args], called as [main] calls it, never raises.  With a
    number of arguments other than four it prints the usage line and
    nothing else, and does not look at any path.  With four it prints a
    message for each input path that does not exist, both if both are
    missing, and returns [True] exactly when both exist, after printing
    the three paths; whether the output path exists plays no part. *)
Theorem check_args_result (argv : list string) (path_exists : string -> bool) :
  (length argv <> 4%nat ->
   check_args argv argv path_exists = (print_text [usage_text], inr false)) /\
  (forall a0 a1 a2 a3, argv = [a0; a1; a2; a3] ->
     check_args argv argv path_exists =
       ((if path_exists a1 then "" else print_text [a1; missing_text]) +:+
        (if path_exists a2 then "" else print_text [a2; missing_text]) +:+
        (if path_exists a1 && path_exists a2 then summary_text a1 a2 a3 else ""),
        inr (path_exists a1 && path_exists a2))).
Proof.
  split; [apply check_args_wrong_count|].
  intros a0 a1 a2 a3 ->. apply check_args_four.
Qed.

Lemma check_args_result_witness :
  check_args ["loci.py"; "a.csv"; "b.csv"] ["loci.py"; "a.csv"; "b.csv"]
             (fun _ => true) = (print_text [usage_text], inr false) /\
  check_args ["loci.py"; "a.csv"; "b.csv"; "out"] ["loci.py"; "a.csv"; "b.csv"; "out"]
             (fun p => String.eqb p "out") =
    ("a.csv does not exist or isn't a file." +:+ nl
       +:+ "b.csv does not exist or isn't a file." +:+ nl, inr false).
Proof.
  split.
  - refine (proj1 (check_args_result ["loci.py"; "a.csv"; "b.csv"] _) _).
    simpl. lia.
  - exact (proj2 (check_args_result ["loci.py"; "a.csv"; "b.csv"; "out"]
                    (fun p => String.eqb p "out"))
                 "loci.py" "a.csv" "b.csv" "out" eq_refl).
Defined.

(** X19: the messages of [check_args] name the entries of [sys.argv],
    not those of its parameter: called with four arguments of which an
    input path is missing while [sys.argv] is shorter, it raises
    [IndexError] before printing anything. *)
Theorem check_args_reads_sys_argv
    (sys_argv : list string) (a0 a1 a2 a3 : string)
    (path_exists : string -> bool) :
  sys_argv !! 1%nat = None ->
  path_exists a1 = false ->
  check_args sys_argv [a0; a1; a2; a3] path_exists = ("", inl IndexError).
Proof.
  intros Hargv Hmissing. unfold check_args, check_path.
  simpl length. simpl Nat.eqb. simpl negb. unfold item at 1. simpl lookup.
  unfold and_then at 3, say at 1. unfold and_then at 2.
  unfold and_then at 2. rewrite Hmissing. simpl negb. cbv iota.
  unfold item at 1. rewrite Hargv. reflexivity.
Qed.

Lemma check_args_reads_sys_argv_witness :
  check_args ["loci.py"] ["x"; "a.csv"; "b.csv"; "out"] (fun _ => false) =
    ("", inl IndexError).
Proof.
  refine (check_args_reads_sys_argv ["loci.py"] "x" "a.csv" "b.csv" "out"
            (fun _ => false) _ _); reflexivity.
Defined.

(** ** The program and the files *)











